(** * youtune: the frame extraction pipeline of [tune.py]

    A shallow embedding of [is_mostly_black_or_white] and [extract_frames].

    The Python code talks to three libraries: OpenCV (the capture, the colour
    conversion, the mean, the image writer), PIL and imagehash.  What the
    pipeline does with them is modelled as follows.

    - A frame is the array [cap.read()] returns: rows of BGR pixels.
    - [cv2.cvtColor(image, cv2.COLOR_BGR2GRAY)] maps every pixel to one luma
      sample; the per-pixel weighting is OpenCV's and is a parameter here.
    - [cv2.mean(gray)[0]] is the arithmetic mean of the samples, kept as an
      exact rational.  OpenCV returns it as a double: where the exact mean is
      within rounding of a threshold the code may answer otherwise than this
      model, so the theorems on the classifier are those that hold on either
      side of such a tie (samples all within, or all beyond, a threshold) and
      those that use its answer as a boolean only.
    - A frame that [cap.read()] delivers has pixels; on an array without
      pixels OpenCV raises, which is not modelled.
    - [hash_func] is an argument of [extract_frames] in the source and an
      argument here; like every Python callable it may raise.
    - An [ImageHash] is its flattened bit array, and [-] on two hashes is
      imagehash's [__sub__].
    - Calls with an effect outside the function ([print], [cv2.imwrite],
      [cap.read], [cap.release]) and the two calls the specification talks
      about (the classifier and the hasher) are recorded, in order, in a trace
      of events; a raised exception ends the run and keeps the trace so far.
    - [extract_frames] below is the function from line 44 on, entered once
      the output directory is in place; [extract_frames_call] is the whole
      call, with the creation of the directory on lines 41-42 in front, which
      fails when [os.makedirs] does. *)

From Stdlib Require Import ZArith QArith List Bool Sorted Lia.
From Stdlib Require String.
Import ListNotations.

Open Scope Z_scope.

Module Tune.

(** ** Data *)

Record Pixel : Type := mkPixel { px_b : Z; px_g : Z; px_r : Z }.

(** A decoded frame, height x width x 3. *)
Definition Frame : Type := list (list Pixel).

(** [imagehash.ImageHash]: the boolean array [self.hash], flattened. *)
Definition ImageHash : Type := list bool.

Inductive exn : Type :=
| ZeroDivisionError
| TypeError
| ValueError
| OSError.

Inductive res (A : Type) : Type :=
| Ok (a : A)
| Raise (e : exn).
Arguments Ok {A} a.
Arguments Raise {A} e.

(** What a run of [extract_frames] does that can be seen from outside, plus
    the calls of the classifier and of the hasher. *)
Inductive event : Type :=
| PrintOpenError
    (* print("Error: Could not open video.") *)
| PrintTotal (total_frames : Z) (fps : Q)
    (* print(f"Total frames: {total_frames}, FPS: {fps}") *)
| CapRead (frame_index : Z)
    (* cap.read() returned ret = True; the frame has this index *)
| Classify (frame_index : Z)
    (* is_mostly_black_or_white(frame, ...) is called *)
| HashCall (frame_index : Z)
    (* hash_func(pil_image, hash_size=hash_size) is called *)
| PrintSkipDuplicate (frame_index : Z) (hash_diff : Z)
    (* print(f"Skipping frame {frame_index} due to perceived duplication
       (hash diff: {hash_diff})") *)
| PrintSkipBlackWhite (frame_index : Z)
    (* print(f"Skipping frame {frame_index} because it's mostly black or white") *)
| Imwrite (frame_index : Z) (frame : Frame)
    (* cv2.imwrite(os.path.join(save_path, f'frame_{frame_index}.jpg'), frame) *)
| CapRelease
    (* cap.release() *)
| PrintDone (saved_frame_count : Z) (save_path : String.string).
    (* print(f"Done extracting frames. {saved_frame_count} images are saved
       in '{save_path}'.") *)

Definition trace : Type := list event.

(** ** A writer and error monad for the body of [extract_frames] *)

Definition M (A : Type) : Type := (trace * res A)%type.

Definition ret {A : Type} (a : A) : M A := ([], Ok a).

Definition bind {A B : Type} (m : M A) (k : A -> M B) : M B :=
  match m with
  | (t, Ok a) => let (t', r) := k a in (t ++ t', r)
  | (t, Raise e) => (t, Raise e)
  end.

Definition emit (e : event) : M unit := ([e], Ok tt).

Definition lift {A : Type} (r : res A) : M A := ([], r).

Notation "x <- m ;; k" := (bind m (fun x => k))
  (at level 61, m at next level, right associativity).
Notation "m ;;; k" := (bind m (fun _ => k))
  (at level 61, right associativity).

(** ** Python's [%] on integers: floor modulo, raising on a zero divisor *)

Definition py_mod (a b : Z) : res Z :=
  if b =? 0 then Raise ZeroDivisionError else Ok (a mod b).

(** ** imagehash: the difference of two hashes *)

(** [numpy.count_nonzero(a != b)] on two flat arrays of the same size. *)
Fixpoint count_nonzero_ne (a b : list bool) : Z :=
  match a, b with
  | x :: a', y :: b' => (if Bool.eqb x y then 0 else 1) + count_nonzero_ne a' b'
  | _, _ => 0
  end.

(** Modelled from the spec: [ImageHash.__sub__] of the imagehash library, which
    is not part of the repository: the Hamming distance between two
    fingerprints of equal length; on hashes of different sizes the library
    raises [TypeError]. *)
Definition hash_sub (a b : ImageHash) : res Z :=
  if Nat.eqb (length a) (length b)
  then Ok (count_nonzero_ne a b)
  else Raise TypeError.

(** ** The brightness classifier *)

Definition Qlt_bool (x y : Q) : bool := negb (Qle_bool y x).

Section Classifier.

(** The per-pixel weighting of [cv2.COLOR_BGR2GRAY]. *)
Variable BGR2GRAY : Pixel -> Z.

(** [cv2.cvtColor(image, cv2.COLOR_BGR2GRAY)] *)
Definition cvtColor (image : Frame) : list (list Z) :=
  map (map BGR2GRAY) image.

Definition pixel_sum (gray_image : list (list Z)) : Z :=
  fold_right Z.add 0 (concat gray_image).

Definition pixel_count (gray_image : list (list Z)) : Z :=
  Z.of_nat (length (concat gray_image)).

(** [cv2.mean(gray_image)[0]], as the exact mean of the samples; the double
    OpenCV returns is this value up to rounding. *)
Definition cv2_mean (gray_image : list (list Z)) : Q :=
  (inject_Z (pixel_sum gray_image) / inject_Z (pixel_count gray_image))%Q.

(** Lines 24-38, for an image with at least one pixel. *)
Definition is_mostly_black_or_white
    (image : Frame) (threshold : Q) (white_threshold : Q) : bool :=
  let gray_image := cvtColor image in
  let average_brightness := cv2_mean gray_image in
  Qlt_bool average_brightness threshold
  || Qlt_bool white_threshold average_brightness.

End Classifier.

(** The default of the keyword argument [white_threshold]. *)
Definition default_white_threshold : Q := inject_Z 225.

(** ** The pipeline *)

(** [cv2.VideoCapture(video_path)]: whether it opened, the two properties the
    code queries, and the frames [cap.read()] will deliver before it answers
    [ret = False]. *)
Record VideoCapture : Type := mkCap {
  isOpened : bool;
  CAP_PROP_FRAME_COUNT : Z;
  CAP_PROP_FPS : Q;
  frames : list Frame
}.

(** What lines 41-42 ask of the file system: whether a path exists, and what
    [os.makedirs] does with it, which is to return or to raise [OSError]. *)
Record FileSystem : Type := mkFileSystem {
  path_exists : String.string -> bool;
  makedirs : String.string -> res unit
}.

(** The truth value of a Python string: false for the empty one only. *)
Definition str_truth (s : String.string) : bool :=
  match s with
  | String.EmptyString => false
  | String.String _ _ => true
  end.

(** The arguments of [extract_frames] other than [video_path]. *)
Record Config : Type := mkConfig {
  frame_interval : Z;
  save_path : String.string;
  black_white_threshold : Q;
  hash_func : Frame -> Z -> res ImageHash;
  hash_size : Z;
  hash_diff_threshold : Z
}.

(** The local variables that live across iterations of the [while] loop. *)
Record locals : Type := mkLocals {
  frame_index : Z;
  saved_frame_count : Z;
  previous_hash : option ImageHash
}.

Definition init_locals : locals :=
  {| frame_index := 0; saved_frame_count := 0; previous_hash := None |}.

Section Pipeline.

Variable BGR2GRAY : Pixel -> Z.
Variable cfg : Config.

(** Lines 62-84: the body of [if frame_index % frame_interval == 0:].
    [pil_image] is the frame with its channels reordered and is handed to
    [hash_func] as the frame itself. *)
Definition sampled_frame (st : locals) (frame : Frame) : M locals :=
  emit (Classify (frame_index st)) ;;;
  let is_black_or_white :=
    is_mostly_black_or_white BGR2GRAY frame (black_white_threshold cfg)
                             default_white_threshold in
  emit (HashCall (frame_index st)) ;;;
  current_hash <- lift (hash_func cfg frame (hash_size cfg)) ;;
  let should_save := true in
  should_save <-
    match previous_hash st with
    | Some prev =>
        hash_diff <- lift (hash_sub current_hash prev) ;;
        if hash_diff <? hash_diff_threshold cfg
        then emit (PrintSkipDuplicate (frame_index st) hash_diff) ;;; ret false
        else ret should_save
    | None => ret should_save
    end ;;
  should_save <-
    (if is_black_or_white
     then emit (PrintSkipBlackWhite (frame_index st)) ;;; ret false
     else ret should_save) ;;
  saved_frame_count' <-
    (if should_save
     then emit (Imwrite (frame_index st) frame) ;;;
          ret (saved_frame_count st + 1)
     else ret (saved_frame_count st)) ;;
  ret {| frame_index := frame_index st;
         saved_frame_count := saved_frame_count';
         previous_hash := Some current_hash |}.

(** Lines 61-86: one iteration of the loop on a frame that was read. *)
Definition loop_body (st : locals) (frame : Frame) : M locals :=
  r <- lift (py_mod (frame_index st) (frame_interval cfg)) ;;
  st' <- (if r =? 0 then sampled_frame st frame else ret st) ;;
  ret {| frame_index := frame_index st' + 1;
         saved_frame_count := saved_frame_count st';
         previous_hash := previous_hash st' |}.

(** Lines 58-88: [while True], reading from the frames the capture still
    holds; the empty list is [ret = False], which breaks out of the loop. *)
Fixpoint while_loop (remaining : list Frame) (st : locals) : M locals :=
  match remaining with
  | [] => ret st
  | frame :: remaining' =>
      emit (CapRead (frame_index st)) ;;;
      st' <- loop_body st frame ;;
      while_loop remaining' st'
  end.

(** Lines 44-91: the function once the output directory is in place.
    Lines 41-42, which create it, come in front in [extract_frames_call]. *)
Definition extract_frames (cap : VideoCapture) : M unit :=
  if negb (isOpened cap)
  then emit PrintOpenError
  else
    emit (PrintTotal (CAP_PROP_FRAME_COUNT cap) (CAP_PROP_FPS cap)) ;;;
    st <- while_loop (frames cap) init_locals ;;
    emit CapRelease ;;;
    emit (PrintDone (saved_frame_count st) (save_path cfg)).

(** Lines 40-91, the whole call: the output directory is created when
    [save_path] is not empty and does not exist yet, and then the capture is
    opened and scanned.  An exception of [os.makedirs] ends the call before
    anything else is done. *)
Definition extract_frames_call (fsys : FileSystem) (cap : VideoCapture)
  : M unit :=
  (if str_truth (save_path cfg) && negb (path_exists fsys (save_path cfg))
   then lift (makedirs fsys (save_path cfg))
   else ret tt) ;;;
  extract_frames cap.

End Pipeline.

End Tune.

Import Tune.

(** ** Observations on a trace *)

Definition is_imwrite (e : event) : bool :=
  match e with Imwrite _ _ => true | _ => false end.

(** How many frames a trace hands to [cv2.imwrite]. *)
Definition count_imwrite (tr : trace) : Z :=
  Z.of_nat (length (filter is_imwrite tr)).

Definition is_skip_message (e : event) : bool :=
  match e with
  | PrintSkipDuplicate _ _ | PrintSkipBlackWhite _ => true
  | _ => false
  end.

(** The skip messages printed in a trace, in order. *)
Definition skip_messages (tr : trace) : list event :=
  filter is_skip_message tr.

(** The gate flagged frame [i] as a duplicate: the message of line 73, which
    is printed where [should_save] is cleared for that reason. *)
Definition flagged_duplicate (i : Z) (tr : trace) : Prop :=
  exists d, In (PrintSkipDuplicate i d) tr.

(** The outcome of frame [i] shows in a trace: a skip message for it or its
    image written. *)
Definition reported (i : Z) (tr : trace) : Prop :=
  (exists d, In (PrintSkipDuplicate i d) tr)
  \/ In (PrintSkipBlackWhite i) tr
  \/ (exists frame, In (Imwrite i frame) tr).

(** The frame an event is about, for the events of the sampled branch. *)
Definition processed_index (e : event) : option Z :=
  match e with
  | Classify i | HashCall i | PrintSkipDuplicate i _
  | PrintSkipBlackWhite i | Imwrite i _ => Some i
  | _ => None
  end.

(** What the iteration of a frame prints when it is skipped as a duplicate at
    distance 0 and is not black or white. *)
Definition duplicate_iteration (k : Z) : trace :=
  [CapRead k; Classify k; HashCall k; PrintSkipDuplicate k 0].

(** The [m] frame indices from [start] on. *)
Fixpoint indices_from (start : Z) (m : nat) : list Z :=
  match m with
  | O => []
  | S m' => start :: indices_from (start + 1) m'
  end.

(** The stored hash, when there is one, has [n] bits. *)
Definition stored_size (n : nat) (st : locals) : Prop :=
  forall p, previous_hash st = Some p -> length p = n.

(** The hash function answers on this frame, with [n] bits. *)
Definition hashes_to_size (cfg : Config) (n : nat) (frame : Frame) : Prop :=
  exists h, hash_func cfg frame (hash_size cfg) = Ok h /\ length h = n.

(** The last line a finished run prints, if it got there. *)
Definition done_report (tr : trace) : option event :=
  match rev tr with
  | PrintDone n p :: _ => Some (PrintDone n p)
  | _ => None
  end.

(** How many frames a trace samples: one classifier call per sampled frame. *)
Definition count_sampled (tr : trace) : Z :=
  Z.of_nat (length (filter (fun e => match e with Classify _ => true | _ => false end) tr)).

(** The gate as lines 69-73 evaluate it: whether the frame is flagged, and
    the distance that was measured. *)
Inductive gate (cfg : Config) (st : locals) (h : ImageHash) : bool -> Z -> Prop :=
| gate_first d :
    previous_hash st = None -> gate cfg st h false d
| gate_compared prev d :
    previous_hash st = Some prev ->
    hash_sub h prev = Ok d ->
    gate cfg st h (d <? hash_diff_threshold cfg) d.

(** What a sampled frame's iteration prints and writes, given the two flags. *)
Definition sampled_trace (i : Z) (frame : Frame) (dup : bool) (d : Z) (bw : bool)
  : trace :=
  [Classify i; HashCall i]
  ++ (if dup then [PrintSkipDuplicate i d] else [])
  ++ (if bw then [PrintSkipBlackWhite i] else [])
  ++ (if negb dup && negb bw then [Imwrite i frame] else []).

(** ** Test data *)

Module Fixtures.

(** A luma weighting for the test data: a fixed-point weighted sum of the
    three channels, which is [v] on a gray pixel [(v, v, v)].  It stands in
    for the weighting of OpenCV, which the theorems take as a parameter; the
    test data is made of gray pixels only. *)
Definition test_luma (p : Pixel) : Z :=
  (px_r p * 4899 + px_g p * 9617 + px_b p * 1868 + 8192) / 16384.

Definition gray (v : Z) : Pixel := mkPixel v v v.

Definition frame_of (rows : list (list Z)) : Frame := map (map gray) rows.

Definition black : Frame := frame_of [[0; 0]; [0; 0]].
Definition checker_a : Frame := frame_of [[0; 255]; [255; 0]].
Definition checker_b : Frame := frame_of [[255; 0]; [0; 255]].
Definition half_a : Frame := frame_of [[0; 255]; [255; 255]].

(** A stand-in for an imagehash function: one bit per pixel, set when the
    pixel is brighter than mid-gray; like imagehash it refuses a hash size
    below 2. *)
Definition bit_hash (frame : Frame) (hash_size : Z) : res ImageHash :=
  if hash_size <? 2 then Raise ValueError
  else Ok (map (fun p => 127 <? test_luma p) (concat frame)).

(** The defaults of [extract_frames], with the stand-in hash. *)
Definition default_config : Config :=
  {| frame_interval := 50;
     save_path := String.EmptyString;
     black_white_threshold := inject_Z 10;
     hash_func := bit_hash;
     hash_size := 8;
     hash_diff_threshold := 10 |}.

Definition with_interval (k : Z) (c : Config) : Config :=
  {| frame_interval := k;
     save_path := save_path c;
     black_white_threshold := black_white_threshold c;
     hash_func := hash_func c;
     hash_size := hash_size c;
     hash_diff_threshold := hash_diff_threshold c |}.

Definition with_black_threshold (t : Q) (c : Config) : Config :=
  {| frame_interval := frame_interval c;
     save_path := save_path c;
     black_white_threshold := t;
     hash_func := hash_func c;
     hash_size := hash_size c;
     hash_diff_threshold := hash_diff_threshold c |}.

Definition with_diff_threshold (t : Z) (c : Config) : Config :=
  {| frame_interval := frame_interval c;
     save_path := save_path c;
     black_white_threshold := black_white_threshold c;
     hash_func := hash_func c;
     hash_size := hash_size c;
     hash_diff_threshold := t |}.

Definition video (fs : list Frame) : VideoCapture :=
  {| isOpened := true;
     CAP_PROP_FRAME_COUNT := Z.of_nat (length fs);
     CAP_PROP_FPS := inject_Z 30;
     frames := fs |}.

Definition stride1 : Config := with_interval 1 default_config.

(** The loop's variables when the second of two black frames is read. *)
Definition after_one_black : locals :=
  {| frame_index := 1;
     saved_frame_count := 0;
     previous_hash := Some [false; false; false; false] |}.

(** The loop's variables after [checker_a] was read and kept. *)
Definition after_one_checker : locals :=
  {| frame_index := 1;
     saved_frame_count := 1;
     previous_hash := Some [false; true; true; false] |}.

(** A file system in which nothing exists yet and directories can be made,
    and one in which they cannot. *)
Definition writable : FileSystem :=
  {| path_exists := fun _ => false; makedirs := fun _ => Ok tt |}.

Definition read_only : FileSystem :=
  {| path_exists := fun _ => false; makedirs := fun _ => Raise OSError |}.

(** An output directory, named by the one letter o. *)
Definition out_dir : String.string :=
  Eval cbv in String.String (Ascii.ascii_of_nat 111) String.EmptyString.

Definition with_save_path (p : String.string) (c : Config) : Config :=
  {| frame_interval := frame_interval c;
     save_path := p;
     black_white_threshold := black_white_threshold c;
     hash_func := hash_func c;
     hash_size := hash_size c;
     hash_diff_threshold := hash_diff_threshold c |}.

(** Stride 1 and a duplicate threshold of 2, which tells [checker_a] from
    [checker_b] but not from [half_a]. *)
Definition fine : Config := with_diff_threshold 2 stride1.

End Fixtures.

Import Fixtures.

(** ** Further observations *)

(** The classifier as [extract_frames] calls it on line 64: the black
    threshold of the configuration, the default white threshold. *)
Definition degenerate (luma : Pixel -> Z) (cfg : Config) (frame : Frame) : bool :=
  is_mostly_black_or_white luma frame (black_white_threshold cfg)
                           default_white_threshold.

Definition is_capread (e : event) : bool :=
  match e with CapRead _ => true | _ => false end.

(** The frames a trace reads, in order. *)
Definition reads (tr : trace) : list event := filter is_capread tr.

(** The frame indices a trace writes an image for, in order; the file name
    of an image is made from its index alone. *)
Definition written_indices (tr : trace) : list Z :=
  flat_map (fun e => match e with Imwrite i _ => [i] | _ => [] end) tr.

(** What the iteration of a kept frame does. *)
Definition kept_iteration (i : Z) (frame : Frame) : trace :=
  [CapRead i; Classify i; HashCall i; Imwrite i frame].

(** The trace of a loop that keeps every frame, the first one at [start]. *)
Fixpoint all_kept_trace (start : Z) (fs : list Frame) : trace :=
  match fs with
  | [] => []
  | frame :: fs' => kept_iteration start frame ++ all_kept_trace (start + 1) fs'
  end.

(** Every frame has a hash, and the hash of each frame is at a distance of at
    least the threshold from the hash of the frame before it ([prev] for the
    first one). *)
Fixpoint far_apart (cfg : Config) (prev : option ImageHash) (fs : list Frame)
  : Prop :=
  match fs with
  | [] => True
  | frame :: fs' =>
      exists h,
        hash_func cfg frame (hash_size cfg) = Ok h
        /\ match prev with
           | None => True
           | Some p => exists d, hash_sub h p = Ok d /\ hash_diff_threshold cfg <= d
           end
        /\ far_apart cfg (Some h) fs'
  end.

(** * Properties *)

(** ** The monad *)

Lemma bind_Ok_inv {A B : Type} (m : M A) (k : A -> M B) tr b :
  bind m k = (tr, Ok b) ->
  exists t1 a t2, m = (t1, Ok a) /\ k a = (t2, Ok b) /\ tr = t1 ++ t2.
Proof.
  unfold bind. destruct m as [t1 [a | e]]; [ | discriminate ].
  destruct (k a) as [t2 r] eqn:Hk. intros H. inversion H; subst.
  exists t1, a, t2. auto.
Qed.

Lemma bind_assoc {A B C : Type} (m : M A) (k : A -> M B) (k' : B -> M C) :
  bind (bind m k) k' = bind m (fun a => bind (k a) k').
Proof.
  unfold bind. destruct m as [t [a | e]]; [ | reflexivity ].
  destruct (k a) as [t1 [b | e]]; [ | reflexivity ].
  destruct (k' b) as [t2 r]. now rewrite app_assoc.
Qed.

Lemma bind_ret_l {A B : Type} (a : A) (k : A -> M B) : bind (ret a) k = k a.
Proof. unfold bind, ret. now destruct (k a). Qed.

(** ** The difference of hashes *)

Lemma count_nonzero_ne_self (h : ImageHash) : count_nonzero_ne h h = 0.
Proof.
  induction h as [ | b h IH ]; [ reflexivity | ].
  simpl. rewrite Bool.eqb_reflx, IH. reflexivity.
Qed.

Lemma hash_sub_self (h : ImageHash) : hash_sub h h = Ok 0.
Proof.
  unfold hash_sub. now rewrite Nat.eqb_refl, count_nonzero_ne_self.
Qed.

(** ** One sampled frame *)

Section StepFacts.

Variable luma : Pixel -> Z.
Variable cfg : Config.

Lemma sampled_frame_Ok st frame tr st' :
  sampled_frame luma cfg st frame = (tr, Ok st') ->
  exists h dup d,
    hash_func cfg frame (hash_size cfg) = Ok h
    /\ gate cfg st h dup d
    /\ let bw := is_mostly_black_or_white luma frame (black_white_threshold cfg)
                                           default_white_threshold in
       tr = sampled_trace (frame_index st) frame dup d bw
       /\ st' = {| frame_index := frame_index st;
                   saved_frame_count :=
                     saved_frame_count st + (if negb dup && negb bw then 1 else 0);
                   previous_hash := Some h |}.
Proof.
  unfold sampled_frame, sampled_trace.
  destruct (hash_func cfg frame (hash_size cfg)) as [h | e] eqn:Hh; simpl;
    [ | intros H; discriminate H ].
  destruct (previous_hash st) as [prev | ] eqn:Hp; simpl.
  - destruct (hash_sub h prev) as [d | e] eqn:Hd; simpl;
      [ | intros H; discriminate H ].
    intros H. exists h, (d <? hash_diff_threshold cfg), d.
    split; [ reflexivity | ]. split; [ now apply gate_compared with prev | ].
    revert H.
    destruct (d <? hash_diff_threshold cfg);
      destruct (is_mostly_black_or_white luma frame _ _); simpl;
      intros H; inversion H; subst; split; try reflexivity;
      now rewrite ?Z.add_0_r.
  - intros H. exists h, false, 0.
    split; [ reflexivity | ]. split; [ now apply gate_first | ].
    revert H.
    destruct (is_mostly_black_or_white luma frame _ _); simpl;
      intros H; inversion H; subst; split; try reflexivity;
      now rewrite ?Z.add_0_r.
Qed.

(** The counter after one more iteration. *)
Lemma loop_body_skipped st frame :
  frame_interval cfg <> 0 ->
  frame_index st mod frame_interval cfg <> 0 ->
  loop_body luma cfg st frame
  = ([], Ok {| frame_index := frame_index st + 1;
               saved_frame_count := saved_frame_count st;
               previous_hash := previous_hash st |}).
Proof.
  intros HK Hm. unfold loop_body, py_mod.
  apply Z.eqb_neq in HK, Hm. rewrite HK. cbn [lift bind]. now rewrite Hm.
Qed.

Lemma loop_body_sampled st frame :
  frame_interval cfg <> 0 ->
  frame_index st mod frame_interval cfg = 0 ->
  loop_body luma cfg st frame
  = (st' <- sampled_frame luma cfg st frame ;;
     ret {| frame_index := frame_index st' + 1;
            saved_frame_count := saved_frame_count st';
            previous_hash := previous_hash st' |}).
Proof.
  intros HK Hm. unfold loop_body, py_mod.
  apply Z.eqb_neq in HK. rewrite HK. cbn [lift bind]. rewrite Hm. simpl.
  now destruct (sampled_frame luma cfg st frame) as [t [a | e]].
Qed.

Lemma loop_body_zero st frame :
  frame_interval cfg = 0 ->
  loop_body luma cfg st frame = ([], Raise ZeroDivisionError).
Proof. intros HK. unfold loop_body, py_mod. now rewrite HK. Qed.

(** An iteration that completes either skipped an unsampled frame, silently,
    or ran the sampled branch to its end. *)
Lemma loop_body_Ok st frame tr st' :
  loop_body luma cfg st frame = (tr, Ok st') ->
  frame_interval cfg <> 0
  /\ ((frame_index st mod frame_interval cfg <> 0
       /\ tr = []
       /\ st' = {| frame_index := frame_index st + 1;
                   saved_frame_count := saved_frame_count st;
                   previous_hash := previous_hash st |})
      \/ (frame_index st mod frame_interval cfg = 0
          /\ exists st1,
               sampled_frame luma cfg st frame = (tr, Ok st1)
               /\ st' = {| frame_index := frame_index st + 1;
                           saved_frame_count := saved_frame_count st1;
                           previous_hash := previous_hash st1 |})).
Proof.
  intros H.
  destruct (Z.eq_dec (frame_interval cfg) 0) as [HK | HK].
  { rewrite loop_body_zero in H by exact HK. discriminate H. }
  split; [ exact HK | ].
  destruct (Z.eq_dec (frame_index st mod frame_interval cfg) 0) as [Hm | Hm].
  - right. split; [ exact Hm | ].
    rewrite loop_body_sampled in H by assumption.
    apply bind_Ok_inv in H. destruct H as (t1 & st1 & t2 & Hs & Hr & ->).
    unfold ret in Hr. inversion Hr; subst. rewrite app_nil_r.
    exists st1. split; [ exact Hs | ].
    apply sampled_frame_Ok in Hs.
    destruct Hs as (h & dup & d & _ & _ & _ & ->). reflexivity.
  - left. rewrite loop_body_skipped in H by assumption.
    inversion H; subst. auto.
Qed.

(** ** The loop *)

Lemma while_loop_cons_Ok frame fs st tr st' :
  while_loop luma cfg (frame :: fs) st = (tr, Ok st') ->
  exists t1 st1 t2,
    loop_body luma cfg st frame = (t1, Ok st1)
    /\ while_loop luma cfg fs st1 = (t2, Ok st')
    /\ tr = CapRead (frame_index st) :: t1 ++ t2.
Proof.
  cbn [while_loop]. intros H.
  apply bind_Ok_inv in H. destruct H as (t0 & [] & t & He & H & ->).
  inversion He; subst.
  apply bind_Ok_inv in H. destruct H as (t1 & st1 & t2 & Hb & Hw & ->).
  exists t1, st1, t2. auto.
Qed.

Lemma while_loop_app fs1 fs2 st :
  while_loop luma cfg (fs1 ++ fs2) st
  = (st1 <- while_loop luma cfg fs1 st ;; while_loop luma cfg fs2 st1).
Proof.
  revert st. induction fs1 as [ | f fs1 IH ]; intros st.
  - cbn [while_loop app]. now rewrite bind_ret_l.
  - cbn [while_loop app]. unfold emit. cbn [bind].
    destruct (loop_body luma cfg st f) as [t1 [st1 | e]]; cbn [bind];
      [ | reflexivity ].
    rewrite IH.
    destruct (while_loop luma cfg fs1 st1) as [t2 [st2 | e]]; cbn [bind];
      [ | reflexivity ].
    destruct (while_loop luma cfg fs2 st2) as [t3 r].
    now rewrite <- !app_assoc, <- !app_comm_cons.
Qed.

Lemma while_loop_index fs st tr st' :
  while_loop luma cfg fs st = (tr, Ok st') ->
  frame_index st' = frame_index st + Z.of_nat (length fs).
Proof.
  revert st tr. induction fs as [ | f fs IH ]; intros st tr H.
  - inversion H; subst. simpl. lia.
  - apply while_loop_cons_Ok in H.
    destruct H as (t1 & st1 & t2 & Hb & Hw & _).
    apply IH in Hw. apply loop_body_Ok in Hb.
    destruct Hb as [_ [(_ & _ & ->) | (_ & s & _ & ->)]];
      simpl in Hw; rewrite Hw; simpl length; lia.
Qed.

End StepFacts.

(** ** The classifier *)

Lemma Qlt_bool_iff (x y : Q) : Qlt_bool x y = true <-> (x < y)%Q.
Proof.
  unfold Qlt_bool. rewrite negb_true_iff. split; intros H.
  - apply Qnot_le_lt. intros Hle. apply Qle_bool_iff in Hle. congruence.
  - destruct (Qle_bool y x) eqn:E; [ | reflexivity ].
    apply Qle_bool_iff in E. now apply Qlt_not_le in H.
Qed.

(** ** The stored fingerprint *)

Lemma firstn_S_nth_error {A : Type} (l : list A) (i : nat) (x : A) :
  nth_error l i = Some x -> firstn (S i) l = firstn i l ++ [x].
Proof.
  revert i. induction l as [ | a l IH ]; intros [ | i ] H; try discriminate H.
  - simpl in H. inversion H; subst. reflexivity.
  - simpl in H. cbn [firstn app]. f_equal. now apply IH.
Qed.

(** A sampled frame that is processed to the end leaves its own hash behind. *)
Lemma loop_body_sampled_hash luma cfg st frame tr st' :
  frame_index st mod frame_interval cfg = 0 ->
  loop_body luma cfg st frame = (tr, Ok st') ->
  exists h,
    hash_func cfg frame (hash_size cfg) = Ok h /\ previous_hash st' = Some h.
Proof.
  intros Hm H. apply loop_body_Ok in H.
  destruct H as [_ [(Hn & _) | (_ & st1 & Hs & ->)]]; [ contradiction | ].
  apply sampled_frame_Ok in Hs.
  destruct Hs as (h & dup & d & Hh & _ & _ & ->).
  exists h. split; [ exact Hh | reflexivity ].
Qed.

(** C1: in a run that gets through frame [i], a sampled frame, the stored
    previous hash after that frame's iteration is the hash of frame [i],
    whatever was decided about the frame. *)
Theorem C1_previous_hash_is_current_frame
    (luma : Pixel -> Z) (cfg : Config) (fs : list Frame)
    (i : nat) (frame : Frame) (tr : trace) (st : locals) :
  nth_error fs i = Some frame ->
  Z.of_nat i mod frame_interval cfg = 0 ->
  while_loop luma cfg (firstn (S i) fs) init_locals = (tr, Ok st) ->
  exists h,
    hash_func cfg frame (hash_size cfg) = Ok h /\ previous_hash st = Some h.
Proof.
  intros Hnth Hm H.
  rewrite (firstn_S_nth_error _ _ _ Hnth), while_loop_app in H.
  apply bind_Ok_inv in H. destruct H as (t1 & st1 & t2 & H1 & H2 & _).
  apply while_loop_index in H1.
  assert (Hi : (i < length fs)%nat)
    by (apply nth_error_Some; congruence).
  rewrite length_firstn, Nat.min_l in H1 by lia. simpl in H1.
  apply while_loop_cons_Ok in H2.
  destruct H2 as (t3 & st2 & t4 & Hb & Hw & _).
  inversion Hw; subst st2.
  apply loop_body_sampled_hash in Hb; [ exact Hb | now rewrite H1 ].
Qed.

(** C9: the loop starts an iteration without a stored hash only when no frame
    has been processed yet; once frames have been processed the stored hash is
    there. *)
Theorem C9_previous_hash_absent_only_at_start
    (luma : Pixel -> Z) (cfg : Config) (processed : list Frame)
    (tr : trace) (st : locals) :
  while_loop luma cfg processed init_locals = (tr, Ok st) ->
  (previous_hash st = None <-> processed = []).
Proof.
  intros H. destruct processed as [ | f fs ].
  - inversion H; subst. simpl. tauto.
  - split; [ | discriminate ]. intros Hnone. exfalso.
    apply while_loop_cons_Ok in H.
    destruct H as (t1 & st1 & t2 & Hb & Hw & _).
    apply loop_body_sampled_hash in Hb;
      [ | destruct (frame_interval cfg); reflexivity ].
    destruct Hb as (h & _ & Hp).
    assert (Hkeep : forall l s t s',
               while_loop luma cfg l s = (t, Ok s') ->
               previous_hash s <> None -> previous_hash s' <> None).
    { induction l as [ | g l IH ]; intros s t s' Hl Hs.
      - inversion Hl; subst. exact Hs.
      - apply while_loop_cons_Ok in Hl.
        destruct Hl as (u1 & s1 & u2 & Hb' & Hw' & _).
        apply (IH _ _ _ Hw').
        apply loop_body_Ok in Hb'.
        destruct Hb' as [_ [(_ & _ & ->) | (_ & s2 & Hs2 & ->)]];
          [ exact Hs | ].
        apply sampled_frame_Ok in Hs2.
        destruct Hs2 as (h' & dup & d & _ & _ & _ & ->). discriminate. }
    apply (Hkeep _ _ _ _ Hw); [ | exact Hnone ]. congruence.
Qed.

(** ** The gate and the verdict *)

Lemma In_sampled_trace_dup i frame dup d bw j d' :
  In (PrintSkipDuplicate j d') (sampled_trace i frame dup d bw)
  <-> dup = true /\ j = i /\ d' = d.
Proof.
  unfold sampled_trace.
  destruct dup, bw; simpl; split; intros H;
    repeat match goal with
           | H : _ \/ _ |- _ => destruct H
           | H : _ /\ _ |- _ => destruct H
           | H : False |- _ => destruct H
           | H : _ = _ |- _ => inversion H; clear H; subst
           end; auto.
Qed.

Lemma In_sampled_trace_imwrite i frame dup d bw j g :
  In (Imwrite j g) (sampled_trace i frame dup d bw)
  <-> dup = false /\ bw = false /\ j = i /\ g = frame.
Proof.
  unfold sampled_trace.
  destruct dup, bw; simpl; split; intros H;
    repeat match goal with
           | H : _ \/ _ |- _ => destruct H
           | H : _ /\ _ |- _ => destruct H
           | H : False |- _ => destruct H
           | H : _ = _ |- _ => inversion H; clear H; subst
           end; auto.
Qed.

(** C2: on a sampled frame whose hash is [h], the gate does not flag the frame
    when there is no stored hash; when there is one, at distance [d] from [h],
    the frame is flagged exactly when [d] is below the threshold, and the
    distance printed is [d]. *)
Theorem C2_duplicate_iff_distance_below_threshold
    (luma : Pixel -> Z) (cfg : Config) (st : locals) (frame : Frame)
    (tr : trace) (st' : locals) (h : ImageHash) :
  frame_index st mod frame_interval cfg = 0 ->
  hash_func cfg frame (hash_size cfg) = Ok h ->
  loop_body luma cfg st frame = (tr, Ok st') ->
  match previous_hash st with
  | None => ~ flagged_duplicate (frame_index st) tr
  | Some prev =>
      exists d,
        hash_sub h prev = Ok d
        /\ (flagged_duplicate (frame_index st) tr <-> d < hash_diff_threshold cfg)
        /\ (forall d', In (PrintSkipDuplicate (frame_index st) d') tr -> d' = d)
  end.
Proof.
  intros Hm Hh H. apply loop_body_Ok in H.
  destruct H as [_ [(Hn & _) | (_ & st1 & Hs & _)]]; [ contradiction | ].
  apply sampled_frame_Ok in Hs.
  destruct Hs as (h' & dup & d & Hh' & Hg & -> & _).
  rewrite Hh in Hh'. inversion Hh'; subst h'. unfold flagged_duplicate.
  destruct Hg as [d Hp | prev d Hp Hd]; rewrite Hp.
  - intros [d' Hin]. apply In_sampled_trace_dup in Hin.
    destruct Hin as [Hf _]. discriminate Hf.
  - exists d. split; [ exact Hd | ]. split.
    + rewrite <- Z.ltb_lt. split.
      * intros [d' Hin]. now apply In_sampled_trace_dup in Hin.
      * intros Hlt. exists d. apply In_sampled_trace_dup. auto.
    + intros d' Hin. now apply In_sampled_trace_dup in Hin.
Qed.

Lemma skip_messages_sampled_trace i frame dup d bw :
  skip_messages (sampled_trace i frame dup d bw)
  = (if dup then [PrintSkipDuplicate i d] else [])
    ++ (if bw then [PrintSkipBlackWhite i] else []).
Proof. destruct dup, bw; reflexivity. Qed.

(** C3, as the code has it: a sampled frame's iteration prints the duplicate
    message when the gate flags the frame and then the black-or-white message
    when the classifier flags it, each whatever the other flag says, so a frame
    flagged by both gets both messages, the black-or-white one last; the frame
    is written exactly when neither flag is set. *)
Theorem C3_both_reasons_are_printed
    (luma : Pixel -> Z) (cfg : Config) (st : locals) (frame : Frame)
    (tr : trace) (st' : locals) :
  frame_index st mod frame_interval cfg = 0 ->
  loop_body luma cfg st frame = (tr, Ok st') ->
  exists h dup d,
    hash_func cfg frame (hash_size cfg) = Ok h
    /\ gate cfg st h dup d
    /\ let bw := is_mostly_black_or_white luma frame (black_white_threshold cfg)
                                           default_white_threshold in
       skip_messages tr
       = (if dup then [PrintSkipDuplicate (frame_index st) d] else [])
         ++ (if bw then [PrintSkipBlackWhite (frame_index st)] else [])
       /\ (In (Imwrite (frame_index st) frame) tr <-> dup = false /\ bw = false).
Proof.
  intros Hm H. apply loop_body_Ok in H.
  destruct H as [_ [(Hn & _) | (_ & st1 & Hs & _)]]; [ contradiction | ].
  apply sampled_frame_Ok in Hs.
  destruct Hs as (h & dup & d & Hh & Hg & -> & _).
  exists h, dup, d. split; [ exact Hh | ]. split; [ exact Hg | ].
  split; [ apply skip_messages_sampled_trace | ].
  rewrite In_sampled_trace_imwrite. tauto.
Qed.

(** C3 as stated fails on the second of two black frames: the classifier flags
    it, the gate flags it at distance 0, and the iteration prints the
    duplicate message as well as the black-or-white one. *)
Lemma C3_counterexample :
  while_loop test_luma stride1 [black] init_locals
  = ([CapRead 0; Classify 0; HashCall 0; PrintSkipBlackWhite 0],
     Ok after_one_black)
  /\ is_mostly_black_or_white test_luma black
       (black_white_threshold stride1) default_white_threshold = true
  /\ gate stride1 after_one_black [false; false; false; false] true 0
  /\ loop_body test_luma stride1 after_one_black black
     = ([Classify 1; HashCall 1; PrintSkipDuplicate 1 0; PrintSkipBlackWhite 1],
        Ok {| frame_index := 2;
              saved_frame_count := 0;
              previous_hash := Some [false; false; false; false] |})
  /\ skip_messages
       (fst (loop_body test_luma stride1 after_one_black black))
     <> [PrintSkipBlackWhite 1].
Proof.
  split; [ reflexivity | ]. split; [ reflexivity | ].
  split; [ | split; [ reflexivity | discriminate ] ].
  exact (gate_compared stride1 after_one_black [false; false; false; false]
           [false; false; false; false] 0 eq_refl eq_refl).
Qed.

(** ** The counter of saved frames *)

Lemma count_imwrite_app (a b : trace) :
  count_imwrite (a ++ b) = count_imwrite a + count_imwrite b.
Proof. unfold count_imwrite. rewrite filter_app, length_app. lia. Qed.

Lemma count_imwrite_sampled_trace i frame dup d bw :
  count_imwrite (sampled_trace i frame dup d bw)
  = if negb dup && negb bw then 1 else 0.
Proof. destruct dup, bw; reflexivity. Qed.

(** One iteration adds to the counter what it hands to [cv2.imwrite]: one
    frame or none. *)
Lemma loop_body_saved luma cfg st frame tr st' :
  loop_body luma cfg st frame = (tr, Ok st') ->
  saved_frame_count st' = saved_frame_count st + count_imwrite tr
  /\ (count_imwrite tr = 0 \/ count_imwrite tr = 1).
Proof.
  intros H. apply loop_body_Ok in H.
  destruct H as [_ [(_ & -> & ->) | (_ & st1 & Hs & ->)]].
  - simpl. split; [ unfold count_imwrite; simpl; lia | now left ].
  - apply sampled_frame_Ok in Hs.
    destruct Hs as (h & dup & d & _ & _ & -> & ->).
    rewrite count_imwrite_sampled_trace. simpl.
    split; [ reflexivity | ].
    destruct (negb dup && negb _); auto.
Qed.

Lemma while_loop_saved luma cfg fs st tr st' :
  while_loop luma cfg fs st = (tr, Ok st') ->
  saved_frame_count st' = saved_frame_count st + count_imwrite tr.
Proof.
  revert st tr. induction fs as [ | f fs IH ]; intros st tr H.
  - inversion H; subst. unfold count_imwrite. simpl. lia.
  - apply while_loop_cons_Ok in H.
    destruct H as (t1 & st1 & t2 & Hb & Hw & ->).
    apply IH in Hw. apply loop_body_saved in Hb. destruct Hb as [Hb _].
    change (CapRead (frame_index st) :: t1 ++ t2)
      with ([CapRead (frame_index st)] ++ t1 ++ t2).
    rewrite !count_imwrite_app, Hw, Hb.
    unfold count_imwrite at 3. simpl. lia.
Qed.

(** A run on an opened capture that reaches the end of the stream. *)
Lemma extract_frames_Ok luma cfg cap tr :
  isOpened cap = true ->
  extract_frames luma cfg cap = (tr, Ok tt) ->
  exists t st,
    while_loop luma cfg (frames cap) init_locals = (t, Ok st)
    /\ tr = PrintTotal (CAP_PROP_FRAME_COUNT cap) (CAP_PROP_FPS cap)
            :: t ++ [CapRelease; PrintDone (saved_frame_count st) (save_path cfg)].
Proof.
  intros Ho H. unfold extract_frames in H. rewrite Ho in H. cbn [negb] in H.
  apply bind_Ok_inv in H. destruct H as (t0 & [] & t1 & He & H & ->).
  inversion He; subst.
  apply bind_Ok_inv in H. destruct H as (t & st & t2 & Hw & H & ->).
  exists t, st. split; [ exact Hw | ].
  simpl in H. inversion H; subst. reflexivity.
Qed.

(** C10: every completed iteration raises the counter by the number of frames
    it hands to [cv2.imwrite], which is one for a kept frame and none for any
    other, and the count a finished run prints is the number of frames the
    run has written. *)
Theorem C10_saved_count_is_number_written (luma : Pixel -> Z) (cfg : Config) :
  (forall st frame tr st',
      loop_body luma cfg st frame = (tr, Ok st') ->
      saved_frame_count st' = saved_frame_count st + count_imwrite tr
      /\ (count_imwrite tr = 0 \/ count_imwrite tr = 1))
  /\ (forall cap tr,
         isOpened cap = true ->
         extract_frames luma cfg cap = (tr, Ok tt) ->
         done_report tr = Some (PrintDone (count_imwrite tr) (save_path cfg))).
Proof.
  split; [ intros st frame tr st'; apply loop_body_saved | ].
  intros cap tr Ho H.
  apply extract_frames_Ok in H; [ | exact Ho ].
  destruct H as (t & st & Hw & ->).
  apply while_loop_saved in Hw. simpl in Hw.
  unfold done_report.
  change (PrintTotal (CAP_PROP_FRAME_COUNT cap) (CAP_PROP_FPS cap)
            :: t ++ [CapRelease; PrintDone (saved_frame_count st) (save_path cfg)])
    with ((PrintTotal (CAP_PROP_FRAME_COUNT cap) (CAP_PROP_FPS cap) :: t)
            ++ [CapRelease; PrintDone (saved_frame_count st) (save_path cfg)]).
  rewrite rev_app_distr. cbn [rev app].
  do 2 f_equal. rewrite Hw. unfold count_imwrite. cbn [filter is_imwrite].
  rewrite filter_app, length_app. simpl. lia.
Qed.

(** ** Which frames are sampled *)

Lemma reported_app i a b : reported i (a ++ b) <-> reported i a \/ reported i b.
Proof.
  unfold reported. split.
  - intros [[d H] | [H | [g H]]]; apply in_app_or in H; destruct H; eauto 6.
  - intros [[[d H] | [H | [g H]]] | [[d H] | [H | [g H]]]];
      eauto 6 using in_or_app.
Qed.

Lemma reported_sampled_trace j i frame dup d bw :
  reported j (sampled_trace i frame dup d bw) <-> j = i.
Proof.
  unfold reported, sampled_trace. split.
  - intros [[d' H] | [H | [g H]]]; revert H; destruct dup, bw; simpl;
      intros H;
      repeat match goal with
             | H : _ \/ _ |- _ => destruct H
             | H : False |- _ => destruct H
             | H : _ = _ |- _ => inversion H; clear H; subst
             end; reflexivity.
  - intros ->. destruct dup, bw; simpl; eauto 10.
Qed.

Section Occurrences.

Variable luma : Pixel -> Z.
Variable cfg : Config.

(** A property of traces that looks for something about frame [j], and finds
    it in a sampled frame's iteration exactly when that frame is [j]. *)
Variable P : Z -> trace -> Prop.
Hypothesis P_nil : forall j, ~ P j [].
Hypothesis P_app : forall j a b, P j (a ++ b) <-> P j a \/ P j b.
Hypothesis P_read : forall j i, ~ P j [CapRead i].
Hypothesis P_sampled :
  forall j i frame dup d bw, P j (sampled_trace i frame dup d bw) <-> j = i.

Lemma while_loop_occurs fs st tr st' :
  while_loop luma cfg fs st = (tr, Ok st') ->
  forall j,
    P j tr
    <-> (frame_index st <= j < frame_index st + Z.of_nat (length fs)
         /\ j mod frame_interval cfg = 0).
Proof.
  revert st tr. induction fs as [ | f fs IH ]; intros st tr H j.
  - inversion H; subst. simpl. split; [ intros Hp; now apply P_nil in Hp | lia ].
  - apply while_loop_cons_Ok in H.
    destruct H as (t1 & st1 & t2 & Hb & Hw & ->).
    change (CapRead (frame_index st) :: t1 ++ t2)
      with ([CapRead (frame_index st)] ++ t1 ++ t2).
    rewrite !P_app, (IH _ _ Hw j).
    apply loop_body_Ok in Hb.
    destruct Hb as [_ [(Hn & -> & ->) | (Hm & st2 & Hs & ->)]]; cbn [frame_index].
    + cbn [length]. split.
      * intros [Hr | [Hr | Hr]];
          [ now apply P_read in Hr | now apply P_nil in Hr | ].
        split; [ lia | tauto ].
      * intros [Hr Hj]. right. right. split; [ | exact Hj ].
        assert (j <> frame_index st) by congruence. lia.
    + apply sampled_frame_Ok in Hs.
      destruct Hs as (h & dup & d & _ & _ & -> & _).
      rewrite P_sampled. cbn [length]. split.
      * intros [Hr | [-> | Hr]]; [ now apply P_read in Hr | | ].
        -- split; [ lia | exact Hm ].
        -- split; [ lia | tauto ].
      * intros [Hr Hj].
        destruct (Z.eq_dec j (frame_index st)) as [-> | Hne]; [ auto | ].
        right. right. split; [ lia | exact Hj ].
Qed.

End Occurrences.

(** The events of the sampled branch, however the branch ends. *)
Lemma sampled_frame_events luma cfg st frame e :
  In e (fst (sampled_frame luma cfg st frame)) ->
  processed_index e = Some (frame_index st).
Proof.
  unfold sampled_frame.
  destruct (hash_func cfg frame (hash_size cfg)) as [h | x]; simpl.
  - destruct (previous_hash st) as [prev | ]; simpl.
    + destruct (hash_sub h prev) as [d | x]; simpl.
      * destruct (d <? hash_diff_threshold cfg);
          destruct (is_mostly_black_or_white luma frame _ _); simpl;
          intros H;
          repeat match goal with
                 | H : _ \/ _ |- _ => destruct H
                 | H : False |- _ => destruct H
                 end; subst; reflexivity.
      * intros [H | [H | []]]; subst; reflexivity.
    + destruct (is_mostly_black_or_white luma frame _ _); simpl;
        intros H;
        repeat match goal with
               | H : _ \/ _ |- _ => destruct H
               | H : False |- _ => destruct H
               end; subst; reflexivity.
  - intros [H | [H | []]]; subst; reflexivity.
Qed.

Lemma loop_body_events luma cfg st frame e :
  In e (fst (loop_body luma cfg st frame)) ->
  processed_index e = Some (frame_index st)
  /\ frame_index st mod frame_interval cfg = 0.
Proof.
  destruct (Z.eq_dec (frame_interval cfg) 0) as [HK | HK].
  { rewrite loop_body_zero by exact HK. intros []. }
  destruct (Z.eq_dec (frame_index st mod frame_interval cfg) 0) as [Hm | Hm].
  - rewrite loop_body_sampled by assumption. intros H. split; [ | exact Hm ].
    apply (sampled_frame_events luma cfg st frame).
    destruct (sampled_frame luma cfg st frame) as [t [a | x]];
      simpl in H |- *; [ now rewrite app_nil_r in H | exact H ].
  - rewrite loop_body_skipped by assumption. intros [].
Qed.

Lemma while_loop_events luma cfg fs st e j :
  In e (fst (while_loop luma cfg fs st)) ->
  processed_index e = Some j ->
  frame_index st <= j < frame_index st + Z.of_nat (length fs)
  /\ j mod frame_interval cfg = 0.
Proof.
  revert st. induction fs as [ | f fs IH ]; intros st Hin Hj.
  - destruct Hin.
  - cbn [while_loop] in Hin. unfold emit in Hin. cbn [bind] in Hin.
    destruct (loop_body luma cfg st f) as [t1 [st1 | x]] eqn:Hb.
    + cbn [bind] in Hin.
      destruct (while_loop luma cfg fs st1) as [t2 r] eqn:Hw.
      simpl in Hin. destruct Hin as [<- | Hin]; [ discriminate Hj | ].
      apply in_app_or in Hin. destruct Hin as [Hin | Hin].
      * assert (He := loop_body_events luma cfg st f e).
        rewrite Hb in He. destruct (He Hin) as [He1 He2].
        rewrite Hj in He1. inversion He1; subst j.
        split; [ cbn [length]; lia | exact He2 ].
      * specialize (IH st1). rewrite Hw in IH. specialize (IH Hin Hj).
        apply loop_body_Ok in Hb.
        assert (Hi : frame_index st1 = frame_index st + 1)
          by (destruct Hb as [_ [(_ & _ & ->) | (_ & s & _ & ->)]]; reflexivity).
        rewrite Hi in IH. cbn [length]. split; [ lia | tauto ].
    + cbn [bind] in Hin. simpl in Hin.
      destruct Hin as [<- | Hin]; [ discriminate Hj | ].
      assert (He := loop_body_events luma cfg st f e).
      rewrite Hb in He. destruct (He Hin) as [He1 He2].
      rewrite Hj in He1. inversion He1; subst j.
      split; [ cbn [length]; lia | exact He2 ].
Qed.

(** C5: with a stride of at least 1, a run that reaches the end of the stream
    has classified, hashed and reported exactly the frames whose index is a
    multiple of the stride; in any run, also one that an exception ends, every
    classifier call, hash call, message and written image is for such a frame;
    and the iteration of any other frame does nothing but advance the frame
    index: no event, the stored hash and the counter unchanged. *)
Theorem C5_only_multiples_of_stride_are_processed
    (luma : Pixel -> Z) (cfg : Config) :
  1 <= frame_interval cfg ->
  (forall fs tr st i,
      while_loop luma cfg fs init_locals = (tr, Ok st) ->
      let sampled :=
        0 <= i < Z.of_nat (length fs) /\ i mod frame_interval cfg = 0 in
      (In (Classify i) tr <-> sampled)
      /\ (In (HashCall i) tr <-> sampled)
      /\ (reported i tr <-> sampled))
  /\ (forall fs e i,
         In e (fst (while_loop luma cfg fs init_locals)) ->
         processed_index e = Some i ->
         0 <= i < Z.of_nat (length fs) /\ i mod frame_interval cfg = 0)
  /\ (forall st frame,
         frame_index st mod frame_interval cfg <> 0 ->
         loop_body luma cfg st frame
         = ([], Ok {| frame_index := frame_index st + 1;
                      saved_frame_count := saved_frame_count st;
                      previous_hash := previous_hash st |})).
Proof.
  intros HK. split; [ | split ].
  - intros fs tr st i H sampled. subst sampled.
    split; [ | split ].
    + apply (while_loop_occurs luma cfg (fun j t => In (Classify j) t))
        with (j := i) in H; [ exact H | | | | ].
      * intros j [].
      * intros j a b. apply in_app_iff.
      * intros j k [Hx | []]. discriminate Hx.
      * intros j k f dup d bw. unfold sampled_trace. simpl. split.
        -- intros [Hx | [Hx | Hx]];
             [ now inversion Hx | discriminate Hx | ].
           destruct dup, bw; simpl in Hx;
             repeat match goal with
                    | H : _ \/ _ |- _ => destruct H
                    | H : False |- _ => destruct H
                    | H : _ = _ |- _ => discriminate H
                    end.
        -- intros ->. now left.
    + apply (while_loop_occurs luma cfg (fun j t => In (HashCall j) t))
        with (j := i) in H; [ exact H | | | | ].
      * intros j [].
      * intros j a b. apply in_app_iff.
      * intros j k [Hx | []]. discriminate Hx.
      * intros j k f dup d bw. unfold sampled_trace. simpl. split.
        -- intros [Hx | [Hx | Hx]];
             [ discriminate Hx | now inversion Hx | ].
           destruct dup, bw; simpl in Hx;
             repeat match goal with
                    | H : _ \/ _ |- _ => destruct H
                    | H : False |- _ => destruct H
                    | H : _ = _ |- _ => discriminate H
                    end.
        -- intros ->. right. now left.
    + apply (while_loop_occurs luma cfg reported) with (j := i) in H;
        [ exact H | | | | ].
      * intros j [[d []] | [[] | [g []]]].
      * apply reported_app.
      * intros j k [[d [Hx | []]] | [[Hx | []] | [g [Hx | []]]]];
          discriminate Hx.
      * intros j k f dup d bw. apply reported_sampled_trace.
  - intros fs e i. apply while_loop_events.
  - intros st frame Hm. apply loop_body_skipped; [ lia | exact Hm ].
Qed.

(** ** A video of identical frames *)

Section IdenticalFrames.

Variable luma : Pixel -> Z.
Variable cfg : Config.
Variable frame : Frame.
Variable h : ImageHash.

Hypothesis stride_1 : frame_interval cfg = 1.
Hypothesis not_black_or_white :
  is_mostly_black_or_white luma frame (black_white_threshold cfg)
                           default_white_threshold = false.
Hypothesis hash_ok : hash_func cfg frame (hash_size cfg) = Ok h.

Lemma loop_body_first :
  loop_body luma cfg init_locals frame
  = ([Classify 0; HashCall 0; Imwrite 0 frame],
     Ok {| frame_index := 1; saved_frame_count := 1; previous_hash := Some h |}).
Proof.
  rewrite loop_body_sampled by (rewrite stride_1; first [ discriminate | reflexivity ]).
  unfold sampled_frame. rewrite hash_ok, not_black_or_white. reflexivity.
Qed.

Lemma loop_body_repeated st :
  1 <= hash_diff_threshold cfg ->
  previous_hash st = Some h ->
  loop_body luma cfg st frame
  = ([Classify (frame_index st); HashCall (frame_index st);
      PrintSkipDuplicate (frame_index st) 0],
     Ok {| frame_index := frame_index st + 1;
           saved_frame_count := saved_frame_count st;
           previous_hash := Some h |}).
Proof.
  intros HT Hp.
  rewrite loop_body_sampled
    by (rewrite stride_1; first [ discriminate | apply Z.mod_1_r ]).
  unfold sampled_frame. rewrite hash_ok, not_black_or_white, Hp. simpl.
  rewrite hash_sub_self. simpl.
  assert (E : (0 <? hash_diff_threshold cfg) = true) by (apply Z.ltb_lt; lia).
  rewrite E. reflexivity.
Qed.

Lemma while_loop_repeated m st :
  1 <= hash_diff_threshold cfg ->
  previous_hash st = Some h ->
  while_loop luma cfg (repeat frame m) st
  = (flat_map duplicate_iteration (indices_from (frame_index st) m),
     Ok {| frame_index := frame_index st + Z.of_nat m;
           saved_frame_count := saved_frame_count st;
           previous_hash := Some h |}).
Proof.
  intros HT. revert st. induction m as [ | m IH ]; intros st Hp.
  - simpl. unfold ret. destruct st; simpl in *. now rewrite Hp, Z.add_0_r.
  - cbn [repeat while_loop indices_from flat_map].
    unfold emit. cbn [bind].
    rewrite (loop_body_repeated st HT Hp). cbn [bind].
    rewrite IH by reflexivity. cbn [frame_index saved_frame_count app].
    unfold duplicate_iteration at 2. cbn [app].
    replace (frame_index st + Z.of_nat (S m))
      with (frame_index st + 1 + Z.of_nat m) by lia.
    reflexivity.
Qed.

End IdenticalFrames.

(** C7, with the threshold it needs: a video of N >= 1 identical frames that
    are not black or white, read with stride 1 and a duplicate threshold of at
    least 1, has its first frame written and every later frame skipped with
    the duplicate message at distance 0; one image is saved. *)
Theorem C7_identical_frames_first_kept_rest_duplicates
    (luma : Pixel -> Z) (cfg : Config) (cap : VideoCapture)
    (frame : Frame) (h : ImageHash) (n : nat) :
  frame_interval cfg = 1 ->
  1 <= hash_diff_threshold cfg ->
  is_mostly_black_or_white luma frame (black_white_threshold cfg)
                           default_white_threshold = false ->
  hash_func cfg frame (hash_size cfg) = Ok h ->
  isOpened cap = true ->
  frames cap = repeat frame (S n) ->
  extract_frames luma cfg cap
  = (PrintTotal (CAP_PROP_FRAME_COUNT cap) (CAP_PROP_FPS cap)
       :: [CapRead 0; Classify 0; HashCall 0; Imwrite 0 frame]
       ++ flat_map duplicate_iteration (indices_from 1 n)
       ++ [CapRelease; PrintDone 1 (save_path cfg)],
     Ok tt).
Proof.
  intros HK HT Hbw Hh Ho Hf.
  unfold extract_frames. rewrite Ho, Hf.
  cbn [negb repeat while_loop]. unfold emit. cbn [bind].
  rewrite (loop_body_first luma cfg frame h HK Hbw Hh). cbn [bind].
  rewrite (while_loop_repeated luma cfg frame h HK Hbw Hh) by (auto; reflexivity).
  cbn [frame_index saved_frame_count bind app]. reflexivity.
Qed.

(** C7 as stated fails when the duplicate threshold is 0: no distance is
    below it, so the second of two identical frames is written as well. *)
Lemma C7_counterexample :
  frame_interval (with_diff_threshold 0 stride1) = 1
  /\ is_mostly_black_or_white test_luma checker_a
       (black_white_threshold (with_diff_threshold 0 stride1))
       default_white_threshold = false
  /\ extract_frames test_luma (with_diff_threshold 0 stride1)
       (video [checker_a; checker_a])
     = ([PrintTotal 2 (inject_Z 30);
         CapRead 0; Classify 0; HashCall 0; Imwrite 0 checker_a;
         CapRead 1; Classify 1; HashCall 1; Imwrite 1 checker_a;
         CapRelease; PrintDone 2 String.EmptyString],
        Ok tt).
Proof. repeat split. Qed.

(** ** Reaching the end of the stream *)

Section Completion.

Variable luma : Pixel -> Z.
Variable cfg : Config.
Variable n : nat.

Hypothesis stride_nonzero : frame_interval cfg <> 0.

Lemma sampled_frame_completes st frame :
  stored_size n st -> hashes_to_size cfg n frame ->
  exists t st',
    sampled_frame luma cfg st frame = (t, Ok st') /\ stored_size n st'.
Proof.
  intros Hst (h & Hh & Hn). unfold sampled_frame. rewrite Hh. simpl.
  destruct (previous_hash st) as [prev | ] eqn:Hp; simpl.
  - unfold hash_sub. rewrite Hn, (Hst prev Hp), Nat.eqb_refl. simpl.
    destruct (count_nonzero_ne h prev <? hash_diff_threshold cfg);
      destruct (is_mostly_black_or_white luma frame _ _); simpl;
      eexists; eexists; (split; [ reflexivity | ]);
      intros p Hq; simpl in Hq; injection Hq as <-; exact Hn.
  - destruct (is_mostly_black_or_white luma frame _ _); simpl;
      eexists; eexists; (split; [ reflexivity | ]);
      intros p Hq; simpl in Hq; injection Hq as <-; exact Hn.
Qed.

Lemma loop_body_completes st frame :
  stored_size n st -> hashes_to_size cfg n frame ->
  exists t st',
    loop_body luma cfg st frame = (t, Ok st') /\ stored_size n st'.
Proof.
  intros Hst Hf.
  destruct (Z.eq_dec (frame_index st mod frame_interval cfg) 0) as [Hm | Hm].
  - rewrite loop_body_sampled by assumption.
    destruct (sampled_frame_completes st frame Hst Hf) as (t & st1 & -> & H1).
    simpl. eexists; eexists. split; [ reflexivity | exact H1 ].
  - rewrite loop_body_skipped by assumption.
    eexists; eexists. split; [ reflexivity | exact Hst ].
Qed.

Lemma while_loop_completes fs st :
  stored_size n st -> Forall (hashes_to_size cfg n) fs ->
  exists t st', while_loop luma cfg fs st = (t, Ok st').
Proof.
  revert st. induction fs as [ | f fs IH ]; intros st Hst Hfs.
  - simpl. eexists; eexists; reflexivity.
  - inversion Hfs as [ | ? ? Hf Hrest ]; subst.
    destruct (loop_body_completes st f Hst Hf) as (t1 & st1 & Hb & H1).
    destruct (IH st1 H1 Hrest) as (t2 & st2 & Hw).
    cbn [while_loop]. unfold emit. cbn [bind]. rewrite Hb. cbn [bind].
    rewrite Hw. eexists; eexists; reflexivity.
Qed.

End Completion.

(** C8, as the code has it: when the capture is open, the stride is not zero
    and the hash function answers on every frame with hashes of one size, the
    loop comes to the end of the stream; and whenever it does, the run
    releases the capture and closes with one line that carries the number of
    saved frames, which is the number of frames written.  No count of sampled
    frames is kept or printed. *)
Theorem C8_end_of_stream_reports_saved_count
    (luma : Pixel -> Z) (cfg : Config) (cap : VideoCapture) (n : nat) :
  isOpened cap = true ->
  (frame_interval cfg <> 0 ->
   Forall (hashes_to_size cfg n) (frames cap) ->
   exists t st, while_loop luma cfg (frames cap) init_locals = (t, Ok st))
  /\ (forall t st,
         while_loop luma cfg (frames cap) init_locals = (t, Ok st) ->
         extract_frames luma cfg cap
         = (PrintTotal (CAP_PROP_FRAME_COUNT cap) (CAP_PROP_FPS cap)
              :: t ++ [CapRelease; PrintDone (count_imwrite t) (save_path cfg)],
            Ok tt)).
Proof.
  intros Ho. split.
  - intros HK Hfs. apply (while_loop_completes luma cfg n HK).
    + intros p Hp. discriminate Hp.
    + exact Hfs.
  - intros t st Hw. unfold extract_frames. rewrite Ho. cbn [negb].
    unfold emit. cbn [bind]. rewrite Hw. cbn [bind].
    apply while_loop_saved in Hw. simpl in Hw. now rewrite Hw.
Qed.

(** C8 as stated fails on the count of sampled frames: a run over one frame and
    a run over two identical frames both finish, sample one and two frames,
    and close with the same line, which says one image was saved. *)
Lemma C8_counterexample :
  let run1 := extract_frames test_luma stride1 (video [checker_a]) in
  let run2 := extract_frames test_luma stride1 (video [checker_a; checker_a]) in
  snd run1 = Ok tt /\ snd run2 = Ok tt
  /\ count_sampled (fst run1) = 1 /\ count_sampled (fst run2) = 2
  /\ done_report (fst run1) = Some (PrintDone 1 String.EmptyString)
  /\ done_report (fst run2) = Some (PrintDone 1 String.EmptyString).
Proof. repeat split. Qed.

(** ** Configurations that are not checked *)

Lemma bind_prefix {A B : Type} (m : M A) (k : A -> M B) p t r :
  m = (p ++ t, r) -> exists t' r', bind m k = (p ++ t', r').
Proof.
  intros ->. unfold bind. destruct r as [a | e].
  - destruct (k a) as [t2 r2]. rewrite <- app_assoc. eauto.
  - eauto.
Qed.

Lemma sampled_frame_starts luma cfg st frame :
  exists t r,
    sampled_frame luma cfg st frame
    = ([Classify (frame_index st); HashCall (frame_index st)] ++ t, r).
Proof.
  unfold sampled_frame, emit. cbn [bind].
  match goal with
  | |- context [ let (_, _) := (let (_, _) := ?X in _) in _ ] =>
      destruct X as [t r]
  end.
  exists t, r. reflexivity.
Qed.

(** C4, as the code has it: nothing checks the configuration before the scan.
    On an opened video with at least one frame, a stride of 0 ends the run
    with [ZeroDivisionError] once the first frame has been read, before
    anything is classified, hashed or written; with any other stride, negative
    ones too, and whatever the thresholds and the hash size, the first frame is
    read, classified and handed to the hash function. *)
Theorem C4_configuration_is_not_validated
    (luma : Pixel -> Z) (cfg : Config) (cap : VideoCapture)
    (frame : Frame) (rest : list Frame) :
  isOpened cap = true ->
  frames cap = frame :: rest ->
  (frame_interval cfg = 0 ->
   extract_frames luma cfg cap
   = ([PrintTotal (CAP_PROP_FRAME_COUNT cap) (CAP_PROP_FPS cap); CapRead 0],
      Raise ZeroDivisionError))
  /\ (frame_interval cfg <> 0 ->
      exists t r,
        extract_frames luma cfg cap
        = (PrintTotal (CAP_PROP_FRAME_COUNT cap) (CAP_PROP_FPS cap)
             :: CapRead 0 :: Classify 0 :: HashCall 0 :: t,
           r)).
Proof.
  intros Ho Hf. unfold extract_frames. rewrite Ho, Hf.
  cbn [negb while_loop]. unfold emit. cbn [bind]. split; intros HK.
  - rewrite loop_body_zero by exact HK. reflexivity.
  - rewrite loop_body_sampled
      by (first [ exact HK | destruct (frame_interval cfg); reflexivity ]).
    destruct (sampled_frame_starts luma cfg init_locals frame) as (t & r & Hs).
    eapply bind_prefix in Hs. destruct Hs as (t1 & r1 & ->).
    match goal with
    | |- context [ bind (?p ++ t1, r1) ?k ] =>
        destruct (bind_prefix (p ++ t1, r1) k p t1 r1 eq_refl) as (t2 & r2 & ->)
    end.
    cbn [frame_index init_locals app].
    match goal with
    | |- context [ bind (_, r2) ?k ] =>
        destruct (bind_prefix
                    ([CapRead 0; Classify 0; HashCall 0] ++ t2, r2) k
                    [CapRead 0; Classify 0; HashCall 0] t2 r2 eq_refl)
          as (t3 & r3 & Hb)
    end.
    cbn [app] in Hb. rewrite Hb.
    exists t3, r3. reflexivity.
Qed.

(** C4 as stated fails: with a stride of -1, and with a black threshold of 230
    above the white threshold of 225, the frame of a one-frame video is read,
    classified and hashed, and with the negative stride it is written too. *)
Lemma C4_counterexample :
  frame_interval (with_interval (-1) default_config) <= 0
  /\ extract_frames test_luma (with_interval (-1) default_config)
       (video [checker_a])
     = ([PrintTotal 1 (inject_Z 30);
         CapRead 0; Classify 0; HashCall 0; Imwrite 0 checker_a;
         CapRelease; PrintDone 1 String.EmptyString],
        Ok tt)
  /\ (default_white_threshold
      <= black_white_threshold
           (with_black_threshold (inject_Z 230) stride1))%Q
  /\ extract_frames test_luma (with_black_threshold (inject_Z 230) stride1)
       (video [checker_a])
     = ([PrintTotal 1 (inject_Z 30);
         CapRead 0; Classify 0; HashCall 0; PrintSkipBlackWhite 0;
         CapRelease; PrintDone 0 String.EmptyString],
        Ok tt).
Proof.
  split; [ simpl; lia | ]. split; [ reflexivity | ].
  split; [ | reflexivity ].
  unfold Qle. simpl. lia.
Qed.

(** The stored hash follows the sampled frames, not the kept ones: after the
    frames [checker_a], [half_a] with a threshold of 2, the second frame was
    skipped as a duplicate at distance 1, and the stored hash is its own, which
    differs from that of the one frame kept. *)
Example previous_hash_is_not_last_kept :
  let cfg := with_diff_threshold 2 stride1 in
  while_loop test_luma cfg [checker_a; half_a] init_locals
  = ([CapRead 0; Classify 0; HashCall 0; Imwrite 0 checker_a;
      CapRead 1; Classify 1; HashCall 1; PrintSkipDuplicate 1 1],
     Ok {| frame_index := 2;
           saved_frame_count := 1;
           previous_hash := Some [false; true; true; true] |})
  /\ hash_func cfg half_a (hash_size cfg) = Ok [false; true; true; true]
  /\ hash_func cfg checker_a (hash_size cfg) = Ok [false; true; true; false].
Proof. repeat split. Qed.

(** ** The theorems at work on small videos *)

Lemma C1_witness :
  exists h,
    hash_func fine half_a (hash_size fine) = Ok h
    /\ previous_hash {| frame_index := 2;
                        saved_frame_count := 1;
                        previous_hash := Some [false; true; true; true] |}
       = Some h.
Proof.
  apply (C1_previous_hash_is_current_frame test_luma fine
           [checker_a; half_a; checker_b] 1 half_a
           [CapRead 0; Classify 0; HashCall 0; Imwrite 0 checker_a;
            CapRead 1; Classify 1; HashCall 1; PrintSkipDuplicate 1 1]);
    reflexivity.
Defined.

Lemma C2_witness :
  exists d,
    hash_sub [false; true; true; true] [false; true; true; false] = Ok d
    /\ (flagged_duplicate 1 [Classify 1; HashCall 1; PrintSkipDuplicate 1 1]
        <-> d < 2)
    /\ (forall d',
           In (PrintSkipDuplicate 1 d')
              [Classify 1; HashCall 1; PrintSkipDuplicate 1 1] ->
           d' = d).
Proof.
  exact (C2_duplicate_iff_distance_below_threshold test_luma fine
           after_one_checker half_a
           [Classify 1; HashCall 1; PrintSkipDuplicate 1 1]
           {| frame_index := 2;
              saved_frame_count := 1;
              previous_hash := Some [false; true; true; true] |}
           [false; true; true; true] eq_refl eq_refl eq_refl).
Defined.

Lemma C3_witness :
  exists h dup d,
    hash_func stride1 black (hash_size stride1) = Ok h
    /\ gate stride1 after_one_black h dup d
    /\ skip_messages
         [Classify 1; HashCall 1; PrintSkipDuplicate 1 0; PrintSkipBlackWhite 1]
       = (if dup then [PrintSkipDuplicate 1 d] else [])
         ++ (if is_mostly_black_or_white test_luma black
                  (black_white_threshold stride1) default_white_threshold
             then [PrintSkipBlackWhite 1] else [])
    /\ (In (Imwrite 1 black)
           [Classify 1; HashCall 1; PrintSkipDuplicate 1 0; PrintSkipBlackWhite 1]
        <-> dup = false
            /\ is_mostly_black_or_white test_luma black
                 (black_white_threshold stride1) default_white_threshold
               = false).
Proof.
  exact (C3_both_reasons_are_printed test_luma stride1 after_one_black black
           [Classify 1; HashCall 1; PrintSkipDuplicate 1 0; PrintSkipBlackWhite 1]
           {| frame_index := 2;
              saved_frame_count := 0;
              previous_hash := Some [false; false; false; false] |}
           eq_refl eq_refl).
Defined.

Lemma C4_witness :
  extract_frames test_luma (with_interval 0 default_config)
    (video [checker_a; checker_b])
  = ([PrintTotal 2 (inject_Z 30); CapRead 0], Raise ZeroDivisionError)
  /\ exists t r,
       extract_frames test_luma (with_interval (-1) default_config)
         (video [checker_a; checker_b])
       = (PrintTotal 2 (inject_Z 30)
            :: CapRead 0 :: Classify 0 :: HashCall 0 :: t, r).
Proof.
  split.
  - exact (proj1 (C4_configuration_is_not_validated test_luma
                    (with_interval 0 default_config)
                    (video [checker_a; checker_b]) checker_a [checker_b]
                    eq_refl eq_refl) eq_refl).
  - apply (proj2 (C4_configuration_is_not_validated test_luma
                    (with_interval (-1) default_config)
                    (video [checker_a; checker_b]) checker_a [checker_b]
                    eq_refl eq_refl)).
    discriminate.
Defined.

Lemma C5_witness :
  let tr := [CapRead 0; Classify 0; HashCall 0; Imwrite 0 checker_a;
             CapRead 1;
             CapRead 2; Classify 2; HashCall 2; PrintSkipDuplicate 2 1] in
  1 <= frame_interval (with_interval 2 fine)
  /\ (In (Classify 2) tr <-> 0 <= 2 < 3 /\ 2 mod 2 = 0)
  /\ (In (HashCall 1) tr <-> 0 <= 1 < 3 /\ 1 mod 2 = 0)
  /\ (reported 2 tr <-> 0 <= 2 < 3 /\ 2 mod 2 = 0).
Proof.
  intros tr.
  assert (HK : 1 <= frame_interval (with_interval 2 fine)) by (simpl; lia).
  split; [ exact HK | ].
  destruct (C5_only_multiples_of_stride_are_processed test_luma
              (with_interval 2 fine) HK) as (Hrun & _ & _).
  pose (st := {| frame_index := 3;
                 saved_frame_count := 1;
                 previous_hash := Some [false; true; true; true] |}).
  split; [ | split ].
  - exact (proj1 (Hrun [checker_a; checker_b; half_a] tr st 2 eq_refl)).
  - exact (proj1 (proj2 (Hrun [checker_a; checker_b; half_a] tr st 1 eq_refl))).
  - exact (proj2 (proj2 (Hrun [checker_a; checker_b; half_a] tr st 2 eq_refl))).
Defined.

Lemma C7_witness :
  extract_frames test_luma stride1 (video (repeat checker_a 3))
  = ([PrintTotal 3 (inject_Z 30);
      CapRead 0; Classify 0; HashCall 0; Imwrite 0 checker_a;
      CapRead 1; Classify 1; HashCall 1; PrintSkipDuplicate 1 0;
      CapRead 2; Classify 2; HashCall 2; PrintSkipDuplicate 2 0;
      CapRelease; PrintDone 1 String.EmptyString],
     Ok tt).
Proof.
  apply (C7_identical_frames_first_kept_rest_duplicates test_luma stride1
           (video (repeat checker_a 3)) checker_a
           [false; true; true; false] 2);
    first [ reflexivity | simpl; lia ].
Defined.

Lemma C8_witness :
  (exists t st,
      while_loop test_luma fine [checker_a; checker_b] init_locals
      = (t, Ok st))
  /\ extract_frames test_luma fine (video [checker_a; checker_b])
     = (PrintTotal 2 (inject_Z 30)
          :: [CapRead 0; Classify 0; HashCall 0; Imwrite 0 checker_a;
              CapRead 1; Classify 1; HashCall 1; Imwrite 1 checker_b]
          ++ [CapRelease; PrintDone 2 String.EmptyString],
        Ok tt).
Proof.
  destruct (C8_end_of_stream_reports_saved_count test_luma fine
              (video [checker_a; checker_b]) 4 eq_refl) as [Hreach Hdone].
  split.
  - apply Hreach; [ discriminate | ].
    repeat constructor; eexists; split; reflexivity.
  - exact (Hdone
             [CapRead 0; Classify 0; HashCall 0; Imwrite 0 checker_a;
              CapRead 1; Classify 1; HashCall 1; Imwrite 1 checker_b]
             {| frame_index := 2;
                saved_frame_count := 2;
                previous_hash := Some [true; false; false; true] |}
             eq_refl).
Defined.

Lemma C9_witness :
  previous_hash after_one_checker = None <-> [checker_a] = [].
Proof.
  exact (C9_previous_hash_absent_only_at_start test_luma stride1 [checker_a]
           [CapRead 0; Classify 0; HashCall 0; Imwrite 0 checker_a]
           after_one_checker eq_refl).
Defined.

Lemma C10_witness :
  let tr := [PrintTotal 2 (inject_Z 30);
             CapRead 0; Classify 0; HashCall 0; Imwrite 0 checker_a;
             CapRead 1; Classify 1; HashCall 1; PrintSkipDuplicate 1 1;
             CapRelease; PrintDone 1 String.EmptyString] in
  done_report tr = Some (PrintDone (count_imwrite tr) String.EmptyString)
  /\ saved_frame_count after_one_checker
     = saved_frame_count init_locals
       + count_imwrite [Classify 0; HashCall 0; Imwrite 0 checker_a].
Proof.
  intros tr. split.
  - exact (proj2 (C10_saved_count_is_number_written test_luma fine)
             (video [checker_a; half_a]) tr eq_refl eq_refl).
  - exact (proj1 (proj1 (C10_saved_count_is_number_written test_luma fine)
                    init_locals checker_a
                    [Classify 0; HashCall 0; Imwrite 0 checker_a]
                    after_one_checker eq_refl)).
Defined.

(** * Further properties of the pipeline *)

(** ** Iterations that an exception ends *)

Lemma sampled_frame_Raise luma cfg st frame tr e :
  sampled_frame luma cfg st frame = (tr, Raise e) ->
  tr = [Classify (frame_index st); HashCall (frame_index st)]
  /\ (hash_func cfg frame (hash_size cfg) = Raise e
      \/ exists h prev,
           hash_func cfg frame (hash_size cfg) = Ok h
           /\ previous_hash st = Some prev
           /\ hash_sub h prev = Raise e).
Proof.
  unfold sampled_frame.
  destruct (hash_func cfg frame (hash_size cfg)) as [h | x] eqn:Hh; simpl.
  - destruct (previous_hash st) as [prev | ] eqn:Hp; simpl.
    + destruct (hash_sub h prev) as [d | x] eqn:Hd; simpl.
      * destruct (d <? hash_diff_threshold cfg);
          destruct (is_mostly_black_or_white luma frame _ _); simpl;
          intros H; discriminate H.
      * intros H. inversion H; subst. split; [ reflexivity | ].
        right. exists h, prev. auto.
    + destruct (is_mostly_black_or_white luma frame _ _); simpl;
        intros H; discriminate H.
  - intros H. inversion H; subst. auto.
Qed.

Lemma loop_body_Raise luma cfg st frame tr e :
  loop_body luma cfg st frame = (tr, Raise e) ->
  (frame_interval cfg = 0 /\ tr = [] /\ e = ZeroDivisionError)
  \/ (frame_interval cfg <> 0
      /\ frame_index st mod frame_interval cfg = 0
      /\ sampled_frame luma cfg st frame = (tr, Raise e)).
Proof.
  intros H.
  destruct (Z.eq_dec (frame_interval cfg) 0) as [HK | HK].
  { rewrite loop_body_zero in H by exact HK. inversion H; subst. auto. }
  right. split; [ exact HK | ].
  destruct (Z.eq_dec (frame_index st mod frame_interval cfg) 0) as [Hm | Hm].
  - split; [ exact Hm | ].
    rewrite loop_body_sampled in H by assumption.
    destruct (sampled_frame luma cfg st frame) as [t [st1 | x]];
      simpl in H; [ discriminate H | exact H ].
  - rewrite loop_body_skipped in H by assumption. discriminate H.
Qed.

(** An iteration that completes moves on by one frame and does not lose the
    stored hash. *)
Lemma loop_body_advances luma cfg st frame tr st' :
  loop_body luma cfg st frame = (tr, Ok st') ->
  frame_index st' = frame_index st + 1
  /\ (previous_hash st <> None -> previous_hash st' <> None).
Proof.
  intros H. apply loop_body_Ok in H.
  destruct H as [_ [(_ & _ & ->) | (_ & st1 & Hs & ->)]]; simpl.
  - auto.
  - apply sampled_frame_Ok in Hs.
    destruct Hs as (h & dup & d & _ & _ & _ & ->). simpl.
    split; [ reflexivity | discriminate ].
Qed.

(** Every event of the loop is the read of a frame of the video or happens in
    the iteration of one, started in a state the loop has reached. *)
Lemma while_loop_In luma cfg fs st e :
  In e (fst (while_loop luma cfg fs st)) ->
  (exists k, (k < length fs)%nat /\ e = CapRead (frame_index st + Z.of_nat k))
  \/ exists k st1 frame,
       nth_error fs k = Some frame
       /\ frame_index st1 = frame_index st + Z.of_nat k
       /\ (previous_hash st <> None -> previous_hash st1 <> None)
       /\ In e (fst (loop_body luma cfg st1 frame)).
Proof.
  revert st. induction fs as [ | f fs IH ]; intros st Hin.
  - destruct Hin.
  - cbn [while_loop] in Hin. unfold emit in Hin. cbn [bind] in Hin.
    assert (Hhere : In e (fst (loop_body luma cfg st f)) ->
                    exists k st1 frame,
                      nth_error (f :: fs) k = Some frame
                      /\ frame_index st1 = frame_index st + Z.of_nat k
                      /\ (previous_hash st <> None -> previous_hash st1 <> None)
                      /\ In e (fst (loop_body luma cfg st1 frame))).
    { intros He. exists 0%nat, st, f. simpl. repeat split; auto; lia. }
    assert (Hread : CapRead (frame_index st) = e ->
                    exists k, (k < length (f :: fs))%nat
                              /\ e = CapRead (frame_index st + Z.of_nat k)).
    { intros <-. exists 0%nat. simpl. split; [ lia | f_equal; lia ]. }
    destruct (loop_body luma cfg st f) as [t1 [st1 | x]] eqn:Hb.
    + cbn [bind] in Hin.
      destruct (while_loop luma cfg fs st1) as [t2 r] eqn:Hw.
      simpl in Hin. destruct Hin as [Hin | Hin]; [ left; auto | ].
      apply in_app_or in Hin. destruct Hin as [Hin | Hin]; [ right; auto | ].
      apply loop_body_advances in Hb. destruct Hb as [Hi Hkeep].
      specialize (IH st1). rewrite Hw in IH. specialize (IH Hin).
      destruct IH as [(k & Hk & ->) | (k & st2 & g & Hn & Hi2 & Hk2 & Hg)].
      * left. exists (S k). split; [ simpl; lia | f_equal; lia ].
      * right. exists (S k), st2, g. simpl.
        repeat split; auto; lia.
    + cbn [bind] in Hin. simpl in Hin.
      destruct Hin as [Hin | Hin]; [ left; auto | right; auto ].
Qed.

(** What an iteration writes: the frame it was given, under its own index,
    and only when the classifier and the gate both let it through. *)
Lemma loop_body_imwrite luma cfg st frame j g :
  In (Imwrite j g) (fst (loop_body luma cfg st frame)) ->
  j = frame_index st /\ g = frame
  /\ frame_index st mod frame_interval cfg = 0
  /\ degenerate luma cfg frame = false
  /\ exists h,
       hash_func cfg frame (hash_size cfg) = Ok h
       /\ match previous_hash st with
          | None => True
          | Some prev =>
              exists d, hash_sub h prev = Ok d /\ hash_diff_threshold cfg <= d
          end.
Proof.
  destruct (loop_body luma cfg st frame) as [t [st' | x]] eqn:Hb; simpl.
  - apply loop_body_Ok in Hb.
    destruct Hb as [_ [(_ & -> & _) | (Hm & st1 & Hs & _)]]; [ intros [] | ].
    apply sampled_frame_Ok in Hs.
    destruct Hs as (h & dup & d & Hh & Hg & -> & _).
    rewrite In_sampled_trace_imwrite. intros (Hd & Hbw & -> & ->).
    repeat split; auto. exists h. split; [ exact Hh | ].
    destruct Hg as [d Hp | prev d Hp Hsub]; rewrite Hp; [ exact I | ].
    exists d. split; [ exact Hsub | ]. now apply Z.ltb_ge.
  - apply loop_body_Raise in Hb.
    destruct Hb as [(_ & -> & _) | (_ & _ & Hs)]; [ intros [] | ].
    apply sampled_frame_Raise in Hs. destruct Hs as [-> _].
    intros [H | [H | []]]; discriminate H.
Qed.

(** What an iteration prints about duplication: the distance it measured,
    which is below the threshold. *)
Lemma loop_body_skip_duplicate luma cfg st frame j d :
  In (PrintSkipDuplicate j d) (fst (loop_body luma cfg st frame)) ->
  j = frame_index st
  /\ d < hash_diff_threshold cfg
  /\ exists h prev,
       hash_func cfg frame (hash_size cfg) = Ok h
       /\ previous_hash st = Some prev
       /\ hash_sub h prev = Ok d.
Proof.
  destruct (loop_body luma cfg st frame) as [t [st' | x]] eqn:Hb; simpl.
  - apply loop_body_Ok in Hb.
    destruct Hb as [_ [(_ & -> & _) | (Hm & st1 & Hs & _)]]; [ intros [] | ].
    apply sampled_frame_Ok in Hs.
    destruct Hs as (h & dup & d0 & Hh & Hg & -> & _).
    rewrite In_sampled_trace_dup. intros (Hd & -> & ->).
    destruct Hg as [d0 Hp | prev d0 Hp Hsub]; [ discriminate Hd | ].
    split; [ reflexivity | ]. split; [ now apply Z.ltb_lt | ].
    exists h, prev. auto.
  - apply loop_body_Raise in Hb.
    destruct Hb as [(_ & -> & _) | (_ & _ & Hs)]; [ intros [] | ].
    apply sampled_frame_Raise in Hs. destruct Hs as [-> _].
    intros [H | [H | []]]; discriminate H.
Qed.

Lemma while_loop_In_init luma cfg fs e :
  In e (fst (while_loop luma cfg fs init_locals)) ->
  (exists k, (k < length fs)%nat /\ e = CapRead (Z.of_nat k))
  \/ exists k st1 frame,
       nth_error fs k = Some frame
       /\ frame_index st1 = Z.of_nat k
       /\ (k <> 0%nat -> previous_hash st1 <> None)
       /\ In e (fst (loop_body luma cfg st1 frame)).
Proof.
  destruct fs as [ | f fs ]; [ intros [] | ].
  cbn [while_loop]. unfold emit. cbn [bind]. intros Hin.
  assert (Hhere : In e (fst (loop_body luma cfg init_locals f)) ->
                  exists k st1 frame,
                    nth_error (f :: fs) k = Some frame
                    /\ frame_index st1 = Z.of_nat k
                    /\ (k <> 0%nat -> previous_hash st1 <> None)
                    /\ In e (fst (loop_body luma cfg st1 frame))).
  { intros He. exists 0%nat, init_locals, f. simpl.
    repeat split; auto; try (intros Hk; now destruct Hk). }
  assert (Hread : CapRead (frame_index init_locals) = e ->
                  exists k, (k < length (f :: fs))%nat /\ e = CapRead (Z.of_nat k)).
  { intros <-. exists 0%nat. simpl. split; [ lia | reflexivity ]. }
  destruct (loop_body luma cfg init_locals f) as [t1 [st1 | x]] eqn:Hb.
  - cbn [bind] in Hin.
    destruct (while_loop luma cfg fs st1) as [t2 r] eqn:Hw.
    simpl in Hin. destruct Hin as [Hin | Hin]; [ left; auto | ].
    apply in_app_or in Hin. destruct Hin as [Hin | Hin]; [ right; auto | ].
    assert (Hsome : previous_hash st1 <> None).
    { apply loop_body_sampled_hash in Hb;
        [ | destruct (frame_interval cfg); reflexivity ].
      destruct Hb as (h & _ & Hp). congruence. }
    assert (Hi : frame_index st1 = 1).
    { apply loop_body_advances in Hb. destruct Hb as [Hi _]. exact Hi. }
    assert (Hrest := while_loop_In luma cfg fs st1 e).
    rewrite Hw in Hrest. specialize (Hrest Hin).
    destruct Hrest as [(k & Hk & ->) | (k & st2 & g & Hn & Hi2 & Hk2 & Hg)].
    + left. exists (S k). split; [ simpl; lia | f_equal; lia ].
    + right. exists (S k), st2, g. simpl.
      repeat split; auto; lia.
  - cbn [bind] in Hin. simpl in Hin.
    destruct Hin as [Hin | Hin]; [ left; auto | right; auto ].
Qed.

(** A run on an opened capture, whichever way the loop ends. *)
Lemma extract_frames_opened luma cfg cap :
  isOpened cap = true ->
  extract_frames luma cfg cap
  = match while_loop luma cfg (frames cap) init_locals with
    | (t, Ok st) =>
        (PrintTotal (CAP_PROP_FRAME_COUNT cap) (CAP_PROP_FPS cap)
           :: t ++ [CapRelease; PrintDone (saved_frame_count st) (save_path cfg)],
         Ok tt)
    | (t, Raise e) =>
        (PrintTotal (CAP_PROP_FRAME_COUNT cap) (CAP_PROP_FPS cap) :: t, Raise e)
    end.
Proof.
  intros Ho. unfold extract_frames. rewrite Ho. cbn [negb].
  unfold emit. cbn [bind].
  destruct (while_loop luma cfg (frames cap) init_locals) as [t [st | e]];
    reflexivity.
Qed.

(** The events of a run that belong to a frame are events of the loop. *)
Lemma extract_frames_processed luma cfg cap e j :
  In e (fst (extract_frames luma cfg cap)) ->
  processed_index e = Some j ->
  In e (fst (while_loop luma cfg (frames cap) init_locals)).
Proof.
  destruct (isOpened cap) eqn:Ho.
  - rewrite extract_frames_opened by exact Ho.
    destruct (while_loop luma cfg (frames cap) init_locals) as [t [st | x]];
      simpl; intros [<- | Hin] Hj; try discriminate Hj; try exact Hin.
    apply in_app_or in Hin. destruct Hin as [Hin | [<- | [<- | []]]];
      try discriminate Hj. exact Hin.
  - unfold extract_frames. rewrite Ho. simpl.
    intros [<- | []] Hj. discriminate Hj.
Qed.

(** ** What a run writes *)

(** X1: every image a run writes is a frame of the video, written unchanged
    under that frame's own index; the index is a multiple of the stride and
    the frame is one the classifier let through.  This holds for runs that an
    exception ends as well. *)
Theorem written_images_are_sampled_frames
    (luma : Pixel -> Z) (cfg : Config) (cap : VideoCapture) (i : Z) (g : Frame) :
  In (Imwrite i g) (fst (extract_frames luma cfg cap)) ->
  0 <= i
  /\ nth_error (frames cap) (Z.to_nat i) = Some g
  /\ i mod frame_interval cfg = 0
  /\ degenerate luma cfg g = false.
Proof.
  intros Hin.
  apply extract_frames_processed with (j := i) in Hin; [ | reflexivity ].
  apply while_loop_In_init in Hin.
  destruct Hin as [(k & _ & Hk) | (k & st1 & f & Hn & Hi & _ & Hf)];
    [ discriminate Hk | ].
  apply loop_body_imwrite in Hf.
  destruct Hf as (-> & -> & Hm & Hbw & _).
  rewrite Hi in *. rewrite Nat2Z.id.
  repeat split; auto. lia.
Qed.

Lemma count_imwrite_none (t : trace) :
  (forall i g, ~ In (Imwrite i g) t) -> count_imwrite t = 0.
Proof.
  unfold count_imwrite. induction t as [ | e t IH ]; intros H; [ reflexivity | ].
  destruct e as [ | | | | | | | j f | | ]; simpl;
    try (apply IH; intros i g Hin; apply (H i g); now right).
  exfalso. apply (H j f). now left.
Qed.

Lemma done_report_closing (t : trace) (n : Z) (p : String.string) :
  done_report (t ++ [CapRelease; PrintDone n p]) = Some (PrintDone n p).
Proof. unfold done_report. rewrite rev_app_distr. reflexivity. Qed.

(** X2: on a video all of whose frames the classifier flags, such as one of a
    single dark or bright colour, no image is ever written, and a run that
    reaches the end of the stream reports 0 saved images. *)
Theorem degenerate_video_saves_nothing
    (luma : Pixel -> Z) (cfg : Config) (cap : VideoCapture) :
  (forall frame, In frame (frames cap) -> degenerate luma cfg frame = true) ->
  (forall i g, ~ In (Imwrite i g) (fst (extract_frames luma cfg cap)))
  /\ (forall tr,
         isOpened cap = true ->
         extract_frames luma cfg cap = (tr, Ok tt) ->
         done_report tr = Some (PrintDone 0 (save_path cfg))).
Proof.
  intros Hall.
  assert (Hloop : forall i g,
             ~ In (Imwrite i g) (fst (while_loop luma cfg (frames cap) init_locals))).
  { intros i g Hin. apply while_loop_In_init in Hin.
    destruct Hin as [(k & _ & Hk) | (k & st1 & f & Hn & _ & _ & Hf)];
      [ discriminate Hk | ].
    apply loop_body_imwrite in Hf. destruct Hf as (_ & _ & _ & Hbw & _).
    apply nth_error_In in Hn. rewrite (Hall f Hn) in Hbw. discriminate Hbw. }
  split.
  - intros i g Hin.
    apply extract_frames_processed with (j := i) in Hin; [ | reflexivity ].
    exact (Hloop i g Hin).
  - intros tr Ho H. apply extract_frames_Ok in H; [ | exact Ho ].
    destruct H as (t & st & Hw & ->).
    assert (Hsaved := while_loop_saved luma cfg _ _ _ _ Hw).
    rewrite Hw in Hloop. simpl in Hloop, Hsaved.
    rewrite (count_imwrite_none t Hloop) in Hsaved. rewrite Hsaved.
    change (PrintTotal (CAP_PROP_FRAME_COUNT cap) (CAP_PROP_FPS cap)
              :: t ++ [CapRelease; PrintDone 0 (save_path cfg)])
      with ((PrintTotal (CAP_PROP_FRAME_COUNT cap) (CAP_PROP_FPS cap) :: t)
              ++ [CapRelease; PrintDone 0 (save_path cfg)]).
    apply done_report_closing.
Qed.

(** ** Thresholds at the ends of their range *)

Lemma count_nonzero_ne_bounds (a b : list bool) :
  0 <= count_nonzero_ne a b <= Z.of_nat (length a).
Proof.
  revert b. induction a as [ | x a IH ]; intros [ | y b ]; simpl length;
    cbn [count_nonzero_ne]; try lia.
  specialize (IH b). destruct (Bool.eqb x y); lia.
Qed.

Lemma hash_sub_bounds (a b : ImageHash) (d : Z) :
  hash_sub a b = Ok d -> 0 <= d <= Z.of_nat (length a).
Proof.
  unfold hash_sub. destruct (Nat.eqb (length a) (length b)); [ | discriminate ].
  intros H. inversion H; subst. apply count_nonzero_ne_bounds.
Qed.

(** X3: with a duplicate threshold of 0 or less no distance is below it, so no
    run ever prints the duplication message for any frame. *)
Theorem nonpositive_threshold_never_flags_duplicates
    (luma : Pixel -> Z) (cfg : Config) (cap : VideoCapture) (i d : Z) :
  hash_diff_threshold cfg <= 0 ->
  ~ In (PrintSkipDuplicate i d) (fst (extract_frames luma cfg cap)).
Proof.
  intros HT Hin.
  apply extract_frames_processed with (j := i) in Hin; [ | reflexivity ].
  apply while_loop_In_init in Hin.
  destruct Hin as [(k & _ & Hk) | (k & st1 & f & _ & _ & _ & Hf)];
    [ discriminate Hk | ].
  apply loop_body_skip_duplicate in Hf.
  destruct Hf as (_ & Hlt & h & prev & _ & _ & Hsub).
  apply hash_sub_bounds in Hsub. lia.
Qed.

(** When every hash is shorter than the threshold, a loop that starts with a
    stored hash and reaches the end of the stream flags every frame it
    samples. *)
Lemma while_loop_all_flagged luma cfg fs :
  (forall frame h,
      In frame fs ->
      hash_func cfg frame (hash_size cfg) = Ok h ->
      Z.of_nat (length h) < hash_diff_threshold cfg) ->
  forall st t st' j,
    while_loop luma cfg fs st = (t, Ok st') ->
    previous_hash st <> None ->
    frame_index st <= j < frame_index st + Z.of_nat (length fs) ->
    j mod frame_interval cfg = 0 ->
    flagged_duplicate j t.
Proof.
  induction fs as [ | f fs IH ]; intros Hshort st t st' j H Hsome Hj Hm.
  - simpl in Hj. lia.
  - apply while_loop_cons_Ok in H.
    destruct H as (t1 & st1 & t2 & Hb & Hw & ->).
    assert (Hrest : frame_index st < j -> flagged_duplicate j t2).
    { intros Hlt.
      destruct (loop_body_advances luma cfg _ _ _ _ Hb) as [Hi Hkeep].
      apply (IH (fun g h Hg => Hshort g h (or_intror Hg)) st1 t2 st' j Hw).
      - now apply Hkeep.
      - rewrite Hi. simpl length in Hj. lia.
      - exact Hm. }
    assert (Hlift : flagged_duplicate j t2 ->
                    flagged_duplicate j (CapRead (frame_index st) :: t1 ++ t2)).
    { intros [d Hd]. exists d. right. apply in_or_app. now right. }
    apply loop_body_Ok in Hb.
    destruct Hb as [_ [(Hn & _ & _) | (_ & s1 & Hs & _)]].
    + apply Hlift, Hrest.
      assert (j <> frame_index st) by congruence. lia.
    + destruct (Z.eq_dec j (frame_index st)) as [-> | Hne];
        [ | apply Hlift, Hrest; lia ].
      apply sampled_frame_Ok in Hs.
      destruct Hs as (h & dup & d & Hh & Hg & -> & _).
      destruct Hg as [d Hp | prev d Hp Hsub]; [ contradiction | ].
      assert (Hlen := Hshort f h (or_introl eq_refl) Hh).
      apply hash_sub_bounds in Hsub.
      assert (E : (d <? hash_diff_threshold cfg) = true)
        by (apply Z.ltb_lt; lia).
      rewrite E. exists d. right. apply in_or_app. left.
      apply In_sampled_trace_dup. auto.
Qed.

(** X4: when the duplicate threshold is larger than the number of bits of
    every hash the hash function returns on the video, every distance is below
    it: the only image any run can write is that of frame 0, and a run that
    reaches the end of the stream has flagged every sampled frame after
    frame 0 as a duplicate. *)
Theorem threshold_above_hash_length_keeps_only_frame_0
    (luma : Pixel -> Z) (cfg : Config) (cap : VideoCapture) :
  (forall frame h,
      In frame (frames cap) ->
      hash_func cfg frame (hash_size cfg) = Ok h ->
      Z.of_nat (length h) < hash_diff_threshold cfg) ->
  (forall i g,
      In (Imwrite i g) (fst (extract_frames luma cfg cap)) -> i = 0)
  /\ (forall tr i,
         isOpened cap = true ->
         extract_frames luma cfg cap = (tr, Ok tt) ->
         0 < i < Z.of_nat (length (frames cap)) ->
         i mod frame_interval cfg = 0 ->
         flagged_duplicate i tr).
Proof.
  intros Hshort. split.
  - intros i g Hin.
    apply extract_frames_processed with (j := i) in Hin; [ | reflexivity ].
    apply while_loop_In_init in Hin.
    destruct Hin as [(k & _ & Hk) | (k & st1 & f & Hn & Hi & Hsome & Hf)];
      [ discriminate Hk | ].
    apply loop_body_imwrite in Hf.
    destruct Hf as (-> & _ & _ & _ & h & Hh & Hgate).
    destruct k as [ | k ]; [ exact Hi | exfalso ].
    destruct (previous_hash st1) as [prev | ];
      [ | now apply Hsome ].
    destruct Hgate as (d & Hsub & Hd).
    apply hash_sub_bounds in Hsub.
    apply nth_error_In in Hn. specialize (Hshort f h Hn Hh). lia.
  - intros tr i Ho H Hi Hm.
    apply extract_frames_Ok in H; [ | exact Ho ].
    destruct H as (t & st & Hw & ->).
    destruct (frames cap) as [ | f fs ]; [ simpl in Hi; lia | ].
    apply while_loop_cons_Ok in Hw.
    destruct Hw as (t1 & st1 & t2 & Hb & Hw & ->).
    assert (Hone : frame_index st1 = 1)
      by (apply loop_body_advances in Hb; destruct Hb as [Hb _]; exact Hb).
    assert (Hsome : previous_hash st1 <> None).
    { apply loop_body_sampled_hash in Hb;
        [ | destruct (frame_interval cfg); reflexivity ].
      destruct Hb as (h & _ & Hp). congruence. }
    destruct (while_loop_all_flagged luma cfg fs
                (fun g h Hg => Hshort g h (or_intror Hg))
                st1 t2 st i Hw Hsome) as [d Hd];
      [ rewrite Hone; simpl length in Hi; lia | exact Hm | ].
    exists d. right. apply in_or_app. left. right.
    apply in_or_app. now right.
Qed.

(** ** Exceptions *)

(** X5: when the hash of a sampled frame has another number of bits than the
    stored hash, the iteration ends with [TypeError] right after the
    classifier and the hash function were called: nothing is printed or
    written for the frame. *)
Theorem hash_size_mismatch_raises_TypeError
    (luma : Pixel -> Z) (cfg : Config) (st : locals) (frame : Frame)
    (h prev : ImageHash) :
  frame_interval cfg <> 0 ->
  frame_index st mod frame_interval cfg = 0 ->
  hash_func cfg frame (hash_size cfg) = Ok h ->
  previous_hash st = Some prev ->
  length h <> length prev ->
  loop_body luma cfg st frame
  = ([Classify (frame_index st); HashCall (frame_index st)], Raise TypeError).
Proof.
  intros HK Hm Hh Hp Hlen.
  rewrite loop_body_sampled by assumption.
  assert (Hsub : hash_sub h prev = Raise TypeError).
  { unfold hash_sub. apply Nat.eqb_neq in Hlen. now rewrite Hlen. }
  unfold sampled_frame. rewrite Hh, Hp. simpl. rewrite Hsub. reflexivity.
Qed.

(** X6: a run on an opened capture releases the capture exactly when it
    reaches the end of the stream; a run that an exception ends leaves the
    capture unreleased and prints no closing line. *)
Theorem capture_released_iff_run_completes
    (luma : Pixel -> Z) (cfg : Config) (cap : VideoCapture)
    (tr : trace) (r : res unit) :
  isOpened cap = true ->
  extract_frames luma cfg cap = (tr, r) ->
  (In CapRelease tr <-> r = Ok tt)
  /\ ((exists n p, In (PrintDone n p) tr) <-> r = Ok tt).
Proof.
  intros Ho H. rewrite extract_frames_opened in H by exact Ho.
  assert (Hnot : forall e,
             In e (fst (while_loop luma cfg (frames cap) init_locals)) ->
             processed_index e = None -> is_capread e = true).
  { intros e Hin Hnone. apply while_loop_In_init in Hin.
    destruct Hin as [(k & _ & ->) | (k & st1 & f & _ & _ & _ & Hf)];
      [ reflexivity | ].
    apply loop_body_events in Hf. destruct Hf as [Hf _]. congruence. }
  destruct (while_loop luma cfg (frames cap) init_locals) as [t [st | x]];
    inversion H; subst; clear H; simpl in Hnot.
  - split; split; auto; intros _.
    + right. apply in_or_app. right. now left.
    + exists (saved_frame_count st), (save_path cfg).
      right. apply in_or_app. right. right. now left.
  - split; split; try discriminate.
    + intros [Hx | Hin]; [ discriminate Hx | ].
      apply Hnot in Hin; [ discriminate Hin | reflexivity ].
    + intros (n & p & [Hx | Hin]); [ discriminate Hx | ].
      apply Hnot in Hin; [ discriminate Hin | reflexivity ].
Qed.

(** From line 44 on, with a hash function that answers on every frame with
    hashes of one size, the function fails exactly when the capture is open,
    the video has a frame and the stride is 0. *)
Lemma scan_fails_only_on_stride_zero
    (luma : Pixel -> Z) (cfg : Config) (cap : VideoCapture) (n : nat) :
  Forall (hashes_to_size cfg n) (frames cap) ->
  snd (extract_frames luma cfg cap)
  = if isOpened cap && negb (length (frames cap) =? 0)%nat
       && (frame_interval cfg =? 0)
    then Raise ZeroDivisionError
    else Ok tt.
Proof.
  intros Hfs. destruct (isOpened cap) eqn:Ho; cbn [andb].
  - rewrite extract_frames_opened by exact Ho.
    destruct (frames cap) as [ | f fs ] eqn:Hf; [ reflexivity | ].
    cbn [length Nat.eqb negb andb].
    destruct (Z.eqb_spec (frame_interval cfg) 0) as [HK | HK].
    + cbn [while_loop]. unfold emit. cbn [bind].
      rewrite loop_body_zero by exact HK. reflexivity.
    + destruct (while_loop_completes luma cfg n HK (f :: fs) init_locals)
        as (t & st & ->); [ intros p Hp; discriminate Hp | exact Hfs | ].
      reflexivity.
  - unfold extract_frames. rewrite Ho. reflexivity.
Qed.

Lemma bind_lift_Ok {A B : Type} (a : A) (k : A -> M B) :
  bind (lift (Ok a)) k = k a.
Proof. unfold bind, lift. now destruct (k a). Qed.

(** X7: with a hash function that answers on every frame with hashes of one
    size, what a call comes to is decided in two places.  When a non-empty
    [save_path] does not exist and [os.makedirs] raises, the call ends with
    that exception and nothing is printed, read or written.  Otherwise the
    call is the scan from line 44 on, which fails exactly when the capture is
    open, the video has a frame and the stride is 0, and then with
    [ZeroDivisionError]: a stride of 0 passes unnoticed on a capture that did
    not open or on a video without frames. *)
Theorem call_fails_on_makedirs_or_on_stride_zero
    (luma : Pixel -> Z) (cfg : Config) (fsys : FileSystem)
    (cap : VideoCapture) (n : nat) :
  Forall (hashes_to_size cfg n) (frames cap) ->
  match (if str_truth (save_path cfg)
            && negb (path_exists fsys (save_path cfg))
         then makedirs fsys (save_path cfg)
         else Ok tt) with
  | Raise e => extract_frames_call luma cfg fsys cap = ([], Raise e)
  | Ok _ =>
      extract_frames_call luma cfg fsys cap = extract_frames luma cfg cap
      /\ snd (extract_frames_call luma cfg fsys cap)
         = if isOpened cap && negb (length (frames cap) =? 0)%nat
              && (frame_interval cfg =? 0)
           then Raise ZeroDivisionError
           else Ok tt
  end.
Proof.
  intros Hfs.
  assert (Hscan := scan_fails_only_on_stride_zero luma cfg cap n Hfs).
  unfold extract_frames_call.
  destruct (str_truth (save_path cfg)
            && negb (path_exists fsys (save_path cfg))).
  - destruct (makedirs fsys (save_path cfg)) as [[] | e]; [ | reflexivity ].
    rewrite bind_lift_Ok. split; [ reflexivity | exact Hscan ].
  - unfold ret. rewrite (bind_lift_Ok tt). split; [ reflexivity | exact Hscan ].
Qed.


(** ** Counting frames *)

Lemma reads_app (a b : trace) : reads (a ++ b) = reads a ++ reads b.
Proof. apply filter_app. Qed.

Lemma reads_none (t : trace) :
  (forall e, In e t -> is_capread e = false) -> reads t = [].
Proof.
  unfold reads. induction t as [ | e t IH ]; intros H; [ reflexivity | ].
  simpl. rewrite (H e) by now left. apply IH. intros e' He'. apply H. now right.
Qed.

Lemma loop_body_reads luma cfg st frame :
  reads (fst (loop_body luma cfg st frame)) = [].
Proof.
  apply reads_none. intros e He. apply loop_body_events in He.
  destruct He as [He _]. destruct e; try discriminate He; reflexivity.
Qed.

Lemma while_loop_reads luma cfg fs st t st' :
  while_loop luma cfg fs st = (t, Ok st') ->
  reads t = map CapRead (indices_from (frame_index st) (length fs)).
Proof.
  revert st t. induction fs as [ | f fs IH ]; intros st t H.
  - inversion H; subst. reflexivity.
  - apply while_loop_cons_Ok in H.
    destruct H as (t1 & st1 & t2 & Hb & Hw & ->).
    change (CapRead (frame_index st) :: t1 ++ t2)
      with ([CapRead (frame_index st)] ++ t1 ++ t2).
    rewrite !reads_app, (IH _ _ Hw).
    assert (Hr := loop_body_reads luma cfg st f). rewrite Hb in Hr.
    simpl in Hr. rewrite Hr.
    apply loop_body_advances in Hb. destruct Hb as [-> _]. reflexivity.
Qed.

(** X8: a run that reaches the end of the stream has read every frame of the
    video exactly once, in order, whatever the stride: the frame index that
    names a written image is the position of the frame in the video. *)
Theorem completed_run_reads_every_frame_in_order
    (luma : Pixel -> Z) (cfg : Config) (cap : VideoCapture) (tr : trace) :
  isOpened cap = true ->
  extract_frames luma cfg cap = (tr, Ok tt) ->
  reads tr = map CapRead (indices_from 0 (length (frames cap))).
Proof.
  intros Ho H. apply extract_frames_Ok in H; [ | exact Ho ].
  destruct H as (t & st & Hw & ->).
  apply while_loop_reads in Hw.
  change (PrintTotal (CAP_PROP_FRAME_COUNT cap) (CAP_PROP_FPS cap)
            :: t ++ [CapRelease; PrintDone (saved_frame_count st) (save_path cfg)])
    with ([PrintTotal (CAP_PROP_FRAME_COUNT cap) (CAP_PROP_FPS cap)]
            ++ t ++ [CapRelease; PrintDone (saved_frame_count st) (save_path cfg)]).
  rewrite !reads_app, Hw. simpl. now rewrite app_nil_r.
Qed.

Lemma count_sampled_app (a b : trace) :
  count_sampled (a ++ b) = count_sampled a + count_sampled b.
Proof. unfold count_sampled. rewrite filter_app, length_app. lia. Qed.

Lemma count_sampled_sampled_trace i frame dup d bw :
  count_sampled (sampled_trace i frame dup d bw) = 1.
Proof. destruct dup, bw; reflexivity. Qed.

(** The number of multiples of [k] among [0 .. s] grows at the multiples. *)
Lemma ceil_div_step (s k : Z) :
  1 <= k ->
  (s + 1 + k - 1) / k - (s + k - 1) / k = if s mod k =? 0 then 1 else 0.
Proof.
  intros Hk.
  assert (Hs := Z.div_mod s k ltac:(lia)).
  assert (Hr := Z.mod_pos_bound s k ltac:(lia)).
  assert (H1 : (s + 1 + k - 1) / k = s / k + 1).
  { symmetry. apply Z.div_unique with (r := s mod k); lia. }
  rewrite H1.
  destruct (Z.eqb_spec (s mod k) 0) as [E | E].
  - assert (H2 : (s + k - 1) / k = s / k)
      by (symmetry; apply Z.div_unique with (r := k - 1); lia).
    lia.
  - assert (H2 : (s + k - 1) / k = s / k + 1)
      by (symmetry; apply Z.div_unique with (r := s mod k - 1); lia).
    lia.
Qed.

Lemma loop_body_counts luma cfg st frame t st' :
  loop_body luma cfg st frame = (t, Ok st') ->
  count_sampled t = (if frame_index st mod frame_interval cfg =? 0 then 1 else 0)
  /\ 0 <= count_imwrite t <= count_sampled t.
Proof.
  intros H. apply loop_body_Ok in H.
  destruct H as [_ [(Hm & -> & _) | (Hm & st1 & Hs & _)]].
  - apply Z.eqb_neq in Hm. rewrite Hm. unfold count_sampled, count_imwrite.
    simpl. lia.
  - rewrite Hm. apply sampled_frame_Ok in Hs.
    destruct Hs as (h & dup & d & _ & _ & -> & _).
    rewrite count_sampled_sampled_trace, count_imwrite_sampled_trace.
    split; [ reflexivity | ]. destruct (negb dup && negb _); lia.
Qed.

Lemma while_loop_counts luma cfg fs st t st' :
  1 <= frame_interval cfg ->
  while_loop luma cfg fs st = (t, Ok st') ->
  count_sampled t
  = (frame_index st + Z.of_nat (length fs) + frame_interval cfg - 1)
      / frame_interval cfg
    - (frame_index st + frame_interval cfg - 1) / frame_interval cfg
  /\ 0 <= count_imwrite t <= count_sampled t.
Proof.
  intros HK. revert st t. induction fs as [ | f fs IH ]; intros st t H.
  - inversion H; subst. unfold count_sampled, count_imwrite. simpl.
    rewrite Z.add_0_r. lia.
  - apply while_loop_cons_Ok in H.
    destruct H as (t1 & st1 & t2 & Hb & Hw & ->).
    change (CapRead (frame_index st) :: t1 ++ t2)
      with ([CapRead (frame_index st)] ++ t1 ++ t2).
    rewrite !count_sampled_app, !count_imwrite_app.
    destruct (IH _ _ Hw) as [IH1 IH2].
    destruct (loop_body_counts luma cfg _ _ _ _ Hb) as [Hc1 Hc2].
    apply loop_body_advances in Hb. destruct Hb as [Hi _].
    rewrite Hi in IH1. rewrite IH1, Hc1 in *.
    rewrite <- (ceil_div_step (frame_index st) (frame_interval cfg) HK) in *.
    replace (frame_index st + Z.of_nat (length (f :: fs)) + frame_interval cfg - 1)
      with (frame_index st + 1 + Z.of_nat (length fs) + frame_interval cfg - 1)
      by (simpl length; lia).
    change (count_sampled [CapRead (frame_index st)]) with 0.
    change (count_imwrite [CapRead (frame_index st)]) with 0.
    lia.
Qed.

(** X9: with a stride K of at least 1, a run that reaches the end of a video
    of N frames has sampled exactly ceil(N / K) of them. *)
Theorem completed_run_samples_ceil_N_over_K
    (luma : Pixel -> Z) (cfg : Config) (cap : VideoCapture) (tr : trace) :
  1 <= frame_interval cfg ->
  isOpened cap = true ->
  extract_frames luma cfg cap = (tr, Ok tt) ->
  count_sampled tr
  = (Z.of_nat (length (frames cap)) + frame_interval cfg - 1)
      / frame_interval cfg.
Proof.
  intros HK Ho H. apply extract_frames_Ok in H; [ | exact Ho ].
  destruct H as (t & st & Hw & ->).
  apply (while_loop_counts luma cfg _ _ _ _ HK) in Hw. destruct Hw as [Hc _].
  change (PrintTotal (CAP_PROP_FRAME_COUNT cap) (CAP_PROP_FPS cap)
            :: t ++ [CapRelease; PrintDone (saved_frame_count st) (save_path cfg)])
    with ([PrintTotal (CAP_PROP_FRAME_COUNT cap) (CAP_PROP_FPS cap)]
            ++ t ++ [CapRelease; PrintDone (saved_frame_count st) (save_path cfg)]).
  rewrite !count_sampled_app, Hc.
  change (frame_index init_locals) with 0. rewrite !Z.add_0_l.
  rewrite (Z.div_small (frame_interval cfg - 1)) by lia.
  change (count_sampled [PrintTotal (CAP_PROP_FRAME_COUNT cap) (CAP_PROP_FPS cap)])
    with 0.
  change (count_sampled
            [CapRelease; PrintDone (saved_frame_count st) (save_path cfg)])
    with 0.
  lia.
Qed.

(** X10: with a stride K of at least 1, the number of saved images that a
    finished run over N frames reports is between 0 and ceil(N / K), and so
    at most N. *)
Theorem saved_count_at_most_sampled_count
    (luma : Pixel -> Z) (cfg : Config) (cap : VideoCapture) (tr : trace) :
  1 <= frame_interval cfg ->
  isOpened cap = true ->
  extract_frames luma cfg cap = (tr, Ok tt) ->
  exists n,
    done_report tr = Some (PrintDone n (save_path cfg))
    /\ 0 <= n
       <= (Z.of_nat (length (frames cap)) + frame_interval cfg - 1)
            / frame_interval cfg
    /\ n <= Z.of_nat (length (frames cap)).
Proof.
  intros HK Ho H. apply extract_frames_Ok in H; [ | exact Ho ].
  destruct H as (t & st & Hw & ->).
  assert (Hsaved := while_loop_saved luma cfg _ _ _ _ Hw).
  apply (while_loop_counts luma cfg _ _ _ _ HK) in Hw. destruct Hw as [Hc Hle].
  change (frame_index init_locals) with 0 in Hc.
  change (saved_frame_count init_locals) with 0 in Hsaved.
  rewrite !Z.add_0_l in Hc. rewrite Z.add_0_l in Hsaved.
  rewrite (Z.div_small (frame_interval cfg - 1)) in Hc by lia.
  rewrite Z.sub_0_r in Hc.
  exists (saved_frame_count st). split; [ | split ].
  - change (PrintTotal (CAP_PROP_FRAME_COUNT cap) (CAP_PROP_FPS cap)
              :: t ++ [CapRelease; PrintDone (saved_frame_count st) (save_path cfg)])
      with ((PrintTotal (CAP_PROP_FRAME_COUNT cap) (CAP_PROP_FPS cap) :: t)
              ++ [CapRelease; PrintDone (saved_frame_count st) (save_path cfg)]).
    apply done_report_closing.
  - lia.
  - rewrite Hsaved. apply Z.le_trans with (count_sampled t); [ lia | ].
    rewrite Hc.
    assert ((Z.of_nat (length (frames cap)) + frame_interval cfg - 1)
              / frame_interval cfg
            < Z.of_nat (length (frames cap)) + 1)
      by (apply Z.div_lt_upper_bound; [ lia | nia ]).
    lia.
Qed.

(** ** The sign of the stride *)

Lemma mod_opp_eqb (a k : Z) : (a mod (- k) =? 0) = (a mod k =? 0).
Proof.
  destruct (Z.eq_dec k 0) as [-> | Hk]; [ reflexivity | ].
  destruct (Z.eqb_spec (a mod k) 0) as [E | E].
  - apply Z.eqb_eq. now apply Z.mod_opp_r_z.
  - apply Z.eqb_neq. intros E'. apply E.
    rewrite <- (Z.opp_involutive k). apply Z.mod_opp_r_z; [ lia | exact E' ].
Qed.

Lemma loop_body_opp_interval luma cfg k st frame :
  loop_body luma (with_interval (- k) cfg) st frame
  = loop_body luma (with_interval k cfg) st frame.
Proof.
  unfold loop_body, py_mod. cbn [frame_interval with_interval].
  destruct (Z.eqb_spec k 0) as [-> | Hk]; [ reflexivity | ].
  assert (E : (- k =? 0) = false) by (apply Z.eqb_neq; lia).
  rewrite E. cbn [lift bind]. rewrite mod_opp_eqb. reflexivity.
Qed.

Lemma while_loop_opp_interval luma cfg k fs st :
  while_loop luma (with_interval (- k) cfg) fs st
  = while_loop luma (with_interval k cfg) fs st.
Proof.
  revert st. induction fs as [ | f fs IH ]; intros st; [ reflexivity | ].
  cbn [while_loop]. unfold emit. cbn [bind].
  rewrite loop_body_opp_interval.
  destruct (loop_body luma (with_interval k cfg) st f) as [t [st1 | x]];
    cbn [bind]; [ now rewrite IH | reflexivity ].
Qed.

(** X11: a negative stride is not refused and acts as its absolute value: a
    run with stride -k does exactly what the run with stride k does. *)
Theorem negative_stride_acts_as_its_absolute_value
    (luma : Pixel -> Z) (cfg : Config) (cap : VideoCapture) (k : Z) :
  extract_frames luma (with_interval (- k) cfg) cap
  = extract_frames luma (with_interval k cfg) cap.
Proof.
  unfold extract_frames. rewrite while_loop_opp_interval. reflexivity.
Qed.

(** ** Videos without near-duplicates *)

Lemma while_loop_all_kept luma cfg fs st :
  frame_interval cfg = 1 ->
  Forall (fun frame => degenerate luma cfg frame = false) fs ->
  far_apart cfg (previous_hash st) fs ->
  exists st',
    while_loop luma cfg fs st = (all_kept_trace (frame_index st) fs, Ok st')
    /\ saved_frame_count st' = saved_frame_count st + Z.of_nat (length fs).
Proof.
  intros HK. revert st. induction fs as [ | f fs IH ]; intros st Hbw Hfar.
  - exists st. split; [ reflexivity | simpl; lia ].
  - inversion Hbw as [ | ? ? Hf Hrest ]; subst.
    destruct Hfar as (h & Hh & Hprev & Hfar).
    assert (Hb : loop_body luma cfg st f
                 = ([Classify (frame_index st); HashCall (frame_index st);
                     Imwrite (frame_index st) f],
                    Ok {| frame_index := frame_index st + 1;
                          saved_frame_count := saved_frame_count st + 1;
                          previous_hash := Some h |})).
    { rewrite loop_body_sampled
        by (rewrite HK; first [ discriminate | apply Z.mod_1_r ]).
      unfold degenerate in Hf. unfold sampled_frame. rewrite Hh, Hf.
      destruct (previous_hash st) as [prev | ]; [ | reflexivity ].
      destruct Hprev as (d & Hd & Hle). simpl. rewrite Hd. simpl.
      assert (E : (d <? hash_diff_threshold cfg) = false)
        by (apply Z.ltb_ge; exact Hle).
      rewrite E. reflexivity. }
    destruct (IH {| frame_index := frame_index st + 1;
                    saved_frame_count := saved_frame_count st + 1;
                    previous_hash := Some h |} Hrest Hfar) as (st' & Hw & Hs).
    exists st'. split.
    + cbn [while_loop all_kept_trace]. unfold emit. cbn [bind].
      rewrite Hb. cbn [bind]. rewrite Hw. reflexivity.
    + rewrite Hs. simpl. lia.
Qed.

(** X12: with stride 1, on a video in which no frame is flagged by the
    classifier and the hash of every frame is at a distance of at least the
    threshold from the hash of the frame just before it, every frame is
    written, as on a video that alternates between two dissimilar frames; the
    run reports as many saved images as the video has frames. *)
Theorem dissimilar_neighbours_are_all_kept
    (luma : Pixel -> Z) (cfg : Config) (cap : VideoCapture) :
  frame_interval cfg = 1 ->
  isOpened cap = true ->
  Forall (fun frame => degenerate luma cfg frame = false) (frames cap) ->
  far_apart cfg None (frames cap) ->
  extract_frames luma cfg cap
  = (PrintTotal (CAP_PROP_FRAME_COUNT cap) (CAP_PROP_FPS cap)
       :: all_kept_trace 0 (frames cap)
       ++ [CapRelease;
           PrintDone (Z.of_nat (length (frames cap))) (save_path cfg)],
     Ok tt).
Proof.
  intros HK Ho Hbw Hfar.
  destruct (while_loop_all_kept luma cfg (frames cap) init_locals HK Hbw Hfar)
    as (st' & Hw & Hs).
  rewrite extract_frames_opened by exact Ho. rewrite Hw.
  simpl in Hs. rewrite Hs. reflexivity.
Qed.

(** ** The indices of written images *)

Lemma In_written_indices (t : trace) (j : Z) :
  In j (written_indices t) <-> exists g, In (Imwrite j g) t.
Proof.
  unfold written_indices. rewrite in_flat_map. split.
  - intros (e & He & Hj). destruct e; simpl in Hj; try contradiction.
    destruct Hj as [<- | []]. eauto.
  - intros (g & Hg). exists (Imwrite j g). split; [ exact Hg | now left ].
Qed.

Lemma written_indices_app (a b : trace) :
  written_indices (a ++ b) = written_indices a ++ written_indices b.
Proof. apply flat_map_app. Qed.

Lemma written_indices_read (i : Z) (t : trace) :
  written_indices (CapRead i :: t) = written_indices t.
Proof. reflexivity. Qed.

Lemma loop_body_written luma cfg st frame :
  written_indices (fst (loop_body luma cfg st frame)) = []
  \/ written_indices (fst (loop_body luma cfg st frame)) = [frame_index st].
Proof.
  destruct (loop_body luma cfg st frame) as [t [st' | x]] eqn:Hb; simpl.
  - apply loop_body_Ok in Hb.
    destruct Hb as [_ [(_ & -> & _) | (_ & st1 & Hs & _)]]; [ now left | ].
    apply sampled_frame_Ok in Hs.
    destruct Hs as (h & dup & d & _ & _ & -> & _).
    destruct dup, (is_mostly_black_or_white luma frame _ _); simpl; auto.
  - apply loop_body_Raise in Hb.
    destruct Hb as [(_ & -> & _) | (_ & _ & Hs)]; [ now left | ].
    apply sampled_frame_Raise in Hs. destruct Hs as [-> _]. now left.
Qed.

Lemma while_loop_written_sorted luma cfg fs st :
  StronglySorted Z.lt (written_indices (fst (while_loop luma cfg fs st))).
Proof.
  revert st. induction fs as [ | f fs IH ]; intros st; [ constructor | ].
  assert (Hlow : forall st1 j,
             frame_index st1 = frame_index st + 1 ->
             In j (written_indices (fst (while_loop luma cfg fs st1))) ->
             frame_index st < j).
  { intros st1 j Hi Hj. apply In_written_indices in Hj. destruct Hj as [g Hg].
    apply while_loop_events with (j := j) in Hg; [ lia | reflexivity ]. }
  cbn [while_loop]. unfold emit. cbn [bind].
  destruct (loop_body_written luma cfg st f) as [Hw | Hw];
    destruct (loop_body luma cfg st f) as [t1 [st1 | x]] eqn:Hb;
    cbn [bind fst] in *.
  - specialize (IH st1).
    destruct (while_loop luma cfg fs st1) as [t2 r]. simpl fst in *.
    cbn [app]. rewrite written_indices_read, written_indices_app, Hw. exact IH.
  - simpl fst. cbn [app]. rewrite written_indices_read, Hw. constructor.
  - apply loop_body_advances in Hb. destruct Hb as [Hi _].
    specialize (IH st1). specialize (Hlow st1).
    destruct (while_loop luma cfg fs st1) as [t2 r]. simpl fst in *.
    cbn [app]. rewrite written_indices_read, written_indices_app, Hw. simpl.
    constructor; [ exact IH | ].
    apply Forall_forall. intros j Hj. now apply Hlow.
  - simpl fst. cbn [app]. rewrite written_indices_read, Hw. repeat constructor.
Qed.

(** X13: in any run the indices of the written images are strictly
    increasing, so no index is written twice and no image overwrites the
    file of another one. *)
Theorem written_indices_strictly_increase
    (luma : Pixel -> Z) (cfg : Config) (cap : VideoCapture) :
  StronglySorted Z.lt (written_indices (fst (extract_frames luma cfg cap))).
Proof.
  destruct (isOpened cap) eqn:Ho.
  - rewrite extract_frames_opened by exact Ho.
    assert (H := while_loop_written_sorted luma cfg (frames cap) init_locals).
    destruct (while_loop luma cfg (frames cap) init_locals) as [t [st | x]];
      simpl fst in *.
    + change (written_indices
                (PrintTotal (CAP_PROP_FRAME_COUNT cap) (CAP_PROP_FPS cap)
                   :: t ++ [CapRelease;
                            PrintDone (saved_frame_count st) (save_path cfg)]))
        with (written_indices
                (t ++ [CapRelease;
                       PrintDone (saved_frame_count st) (save_path cfg)])).
      rewrite written_indices_app. simpl. now rewrite app_nil_r.
    + exact H.
  - unfold extract_frames. rewrite Ho. simpl. constructor.
Qed.

(** * Further properties of the classifier *)

Lemma concat_cvtColor luma (image : Frame) :
  concat (cvtColor luma image) = map luma (concat image).
Proof. unfold cvtColor. symmetry. apply concat_map. Qed.

Lemma of_nat_succ_Q (n : nat) :
  (inject_Z (Z.of_nat (S n)) == 1 + inject_Z (Z.of_nat n))%Q.
Proof.
  rewrite Nat2Z.inj_succ, <- Z.add_1_l, inject_Z_plus. reflexivity.
Qed.

(** The sum of samples that all lie on one side of a bound lies on that side
    of as many times the bound. *)
Lemma sum_lower_bound (l : list Z) (t : Q) :
  (forall x, In x l -> t <= inject_Z x)%Q ->
  (t * inject_Z (Z.of_nat (length l)) <= inject_Z (fold_right Z.add 0%Z l))%Q.
Proof.
  induction l as [ | x l IH ]; intros H.
  - simpl. rewrite Qmult_0_r. apply Qle_refl.
  - cbn [fold_right length]. rewrite of_nat_succ_Q, inject_Z_plus.
    rewrite Qmult_plus_distr_r, Qmult_1_r.
    apply Qplus_le_compat.
    + apply H. now left.
    + apply IH. intros y Hy. apply H. now right.
Qed.

Lemma sum_upper_bound (l : list Z) (t : Q) :
  (forall x, In x l -> inject_Z x <= t)%Q ->
  (inject_Z (fold_right Z.add 0%Z l) <= t * inject_Z (Z.of_nat (length l)))%Q.
Proof.
  induction l as [ | x l IH ]; intros H.
  - simpl. rewrite Qmult_0_r. apply Qle_refl.
  - cbn [fold_right length]. rewrite of_nat_succ_Q, inject_Z_plus.
    rewrite Qmult_plus_distr_r, Qmult_1_r.
    apply Qplus_le_compat.
    + apply H. now left.
    + apply IH. intros y Hy. apply H. now right.
Qed.

Lemma sum_strict_lower_bound (l : list Z) (t : Q) :
  l <> [] ->
  (forall x, In x l -> t < inject_Z x)%Q ->
  (t * inject_Z (Z.of_nat (length l)) < inject_Z (fold_right Z.add 0%Z l))%Q.
Proof.
  destruct l as [ | x l ]; [ congruence | ]. intros _ H.
  cbn [fold_right length]. rewrite of_nat_succ_Q, inject_Z_plus.
  rewrite Qmult_plus_distr_r, Qmult_1_r.
  apply Qplus_lt_le_compat.
  - apply H. now left.
  - apply sum_lower_bound. intros y Hy. apply Qlt_le_weak, H. now right.
Qed.

Lemma sum_strict_upper_bound (l : list Z) (t : Q) :
  l <> [] ->
  (forall x, In x l -> inject_Z x < t)%Q ->
  (inject_Z (fold_right Z.add 0%Z l) < t * inject_Z (Z.of_nat (length l)))%Q.
Proof.
  destruct l as [ | x l ]; [ congruence | ]. intros _ H.
  cbn [fold_right length]. rewrite of_nat_succ_Q, inject_Z_plus.
  rewrite Qmult_plus_distr_r, Qmult_1_r.
  apply Qplus_lt_le_compat.
  - apply H. now left.
  - apply sum_upper_bound. intros y Hy. apply Qlt_le_weak, H. now right.
Qed.

Lemma pixel_count_pos luma (image : Frame) :
  concat image <> [] ->
  (0 < inject_Z (pixel_count (cvtColor luma image)))%Q.
Proof.
  intros Hne. unfold pixel_count. rewrite concat_cvtColor, length_map.
  change 0%Q with (inject_Z 0). rewrite <- Zlt_Qlt.
  destruct (concat image); [ congruence | simpl; lia ].
Qed.



(** X15: a frame with at least one pixel whose luma samples are all strictly
    below the black threshold, or all strictly above the white threshold, is
    always flagged. *)
Theorem uniformly_dark_or_bright_frame_is_flagged
    (luma : Pixel -> Z) (image : Frame) (threshold white_threshold : Q) :
  concat image <> [] ->
  (forall p, In p (concat image) -> inject_Z (luma p) < threshold)%Q
  \/ (forall p, In p (concat image) -> white_threshold < inject_Z (luma p))%Q ->
  is_mostly_black_or_white luma image threshold white_threshold = true.
Proof.
  intros Hne Hall.
  assert (Hpos := pixel_count_pos luma image Hne).
  assert (Hne' : map luma (concat image) <> [])
    by (destruct (concat image); [ congruence | discriminate ]).
  unfold is_mostly_black_or_white. apply orb_true_iff.
  unfold cv2_mean, pixel_sum, pixel_count in *.
  rewrite concat_cvtColor in *.
  destruct Hall as [Hdark | Hbright]; [ left | right ]; apply Qlt_bool_iff.
  - apply Qlt_shift_div_r; [ exact Hpos | ].
    apply sum_strict_upper_bound; [ exact Hne' | ].
    intros x Hx. apply in_map_iff in Hx.
    destruct Hx as (p & <- & Hp). now apply Hdark.
  - apply Qlt_shift_div_l; [ exact Hpos | ].
    apply sum_strict_lower_bound; [ exact Hne' | ].
    intros x Hx. apply in_map_iff in Hx.
    destruct Hx as (p & <- & Hp). now apply Hbright.
Qed.

(** * The further properties at work on small videos *)

Lemma written_images_are_sampled_frames_witness :
  0 <= 1
  /\ nth_error (frames (video [checker_a; checker_b])) (Z.to_nat 1)
     = Some checker_b
  /\ 1 mod frame_interval fine = 0
  /\ degenerate test_luma fine checker_b = false.
Proof.
  apply (written_images_are_sampled_frames test_luma fine
           (video [checker_a; checker_b]) 1 checker_b).
  simpl. repeat (first [ left; reflexivity | right ]).
Defined.

Lemma degenerate_video_saves_nothing_witness :
  done_report (fst (extract_frames test_luma stride1 (video [black; black])))
  = Some (PrintDone 0 (save_path stride1)).
Proof.
  apply (proj2 (degenerate_video_saves_nothing test_luma stride1
                  (video [black; black])
                  ltac:(intros f [<- | [<- | []]]; reflexivity)));
    reflexivity.
Defined.

Lemma nonpositive_threshold_never_flags_duplicates_witness :
  hash_diff_threshold (with_diff_threshold 0 stride1) <= 0
  /\ ~ In (PrintSkipDuplicate 1 0)
          (fst (extract_frames test_luma (with_diff_threshold 0 stride1)
                  (video [checker_a; checker_a]))).
Proof.
  split; [ simpl; lia | ].
  apply (nonpositive_threshold_never_flags_duplicates test_luma
           (with_diff_threshold 0 stride1) (video [checker_a; checker_a]) 1 0).
  simpl. lia.
Defined.

Lemma threshold_above_hash_length_keeps_only_frame_0_witness :
  (forall i g,
      In (Imwrite i g)
         (fst (extract_frames test_luma stride1
                 (video [checker_a; checker_b; half_a]))) ->
      i = 0)
  /\ flagged_duplicate 1
       (fst (extract_frames test_luma stride1
               (video [checker_a; checker_b; half_a])))
  /\ flagged_duplicate 2
       (fst (extract_frames test_luma stride1
               (video [checker_a; checker_b; half_a]))).
Proof.
  destruct (threshold_above_hash_length_keeps_only_frame_0 test_luma stride1
              (video [checker_a; checker_b; half_a])) as [Hkept Hflag].
  { intros f h [<- | [<- | [<- | []]]] Hh;
      simpl in Hh; inversion Hh; subst; simpl; lia. }
  split; [ exact Hkept | ].
  split; apply Hflag; first [ reflexivity | simpl; lia ].
Defined.

Lemma hash_size_mismatch_raises_TypeError_witness :
  loop_body test_luma stride1 after_one_checker (frame_of [[0]])
  = ([Classify 1; HashCall 1], Raise TypeError).
Proof.
  apply (hash_size_mismatch_raises_TypeError test_luma stride1
           after_one_checker (frame_of [[0]]) [false]
           [false; true; true; false]);
    first [ reflexivity | discriminate ].
Defined.

Lemma capture_released_iff_run_completes_witness :
  (In CapRelease
      [PrintTotal 2 (inject_Z 30);
       CapRead 0; Classify 0; HashCall 0; Imwrite 0 checker_a;
       CapRead 1; Classify 1; HashCall 1]
   <-> @Raise unit TypeError = Ok tt)
  /\ ((exists n p,
          In (PrintDone n p)
             [PrintTotal 2 (inject_Z 30);
              CapRead 0; Classify 0; HashCall 0; Imwrite 0 checker_a;
              CapRead 1; Classify 1; HashCall 1])
      <-> @Raise unit TypeError = Ok tt).
Proof.
  exact (capture_released_iff_run_completes test_luma stride1
           (video [checker_a; frame_of [[0]]]) _ _ eq_refl eq_refl).
Defined.

Lemma call_fails_on_makedirs_or_on_stride_zero_witness :
  extract_frames_call test_luma
    (with_save_path out_dir stride1)
    read_only (video [checker_a; checker_b])
  = ([], Raise OSError)
  /\ snd (extract_frames_call test_luma
            (with_save_path out_dir
               (with_interval 0 default_config))
            writable (video [checker_a; checker_b]))
     = Raise ZeroDivisionError
  /\ snd (extract_frames_call test_luma (with_interval 0 default_config)
            read_only (video []))
     = Ok tt.
Proof.
  split; [ | split ].
  - apply (call_fails_on_makedirs_or_on_stride_zero test_luma
             (with_save_path out_dir stride1)
             read_only (video [checker_a; checker_b]) 4).
    repeat constructor; eexists; split; reflexivity.
  - apply (call_fails_on_makedirs_or_on_stride_zero test_luma
             (with_save_path out_dir
                (with_interval 0 default_config))
             writable (video [checker_a; checker_b]) 4).
    repeat constructor; eexists; split; reflexivity.
  - apply (call_fails_on_makedirs_or_on_stride_zero test_luma
             (with_interval 0 default_config) read_only (video []) 4).
    constructor.
Defined.

Lemma completed_run_reads_every_frame_in_order_witness :
  reads (fst (extract_frames test_luma (with_interval 2 fine)
                (video [checker_a; checker_b; half_a])))
  = [CapRead 0; CapRead 1; CapRead 2].
Proof.
  apply (completed_run_reads_every_frame_in_order test_luma
           (with_interval 2 fine) (video [checker_a; checker_b; half_a]));
    reflexivity.
Defined.

Lemma completed_run_samples_ceil_N_over_K_witness :
  count_sampled (fst (extract_frames test_luma (with_interval 2 fine)
                        (video [checker_a; checker_b; half_a])))
  = (3 + 2 - 1) / 2.
Proof.
  apply (completed_run_samples_ceil_N_over_K test_luma
           (with_interval 2 fine) (video [checker_a; checker_b; half_a]));
    first [ reflexivity | simpl; lia ].
Defined.

Lemma saved_count_at_most_sampled_count_witness :
  exists n,
    done_report (fst (extract_frames test_luma (with_interval 2 fine)
                        (video [checker_a; checker_b; half_a])))
    = Some (PrintDone n String.EmptyString)
    /\ 0 <= n <= (3 + 2 - 1) / 2
    /\ n <= 3.
Proof.
  apply (saved_count_at_most_sampled_count test_luma
           (with_interval 2 fine) (video [checker_a; checker_b; half_a]));
    first [ reflexivity | simpl; lia ].
Defined.

Lemma dissimilar_neighbours_are_all_kept_witness :
  extract_frames test_luma fine (video [checker_a; checker_b; checker_a])
  = ([PrintTotal 3 (inject_Z 30);
      CapRead 0; Classify 0; HashCall 0; Imwrite 0 checker_a;
      CapRead 1; Classify 1; HashCall 1; Imwrite 1 checker_b;
      CapRead 2; Classify 2; HashCall 2; Imwrite 2 checker_a;
      CapRelease; PrintDone 3 String.EmptyString],
     Ok tt).
Proof.
  apply (dissimilar_neighbours_are_all_kept test_luma fine
           (video [checker_a; checker_b; checker_a])).
  - reflexivity.
  - reflexivity.
  - repeat constructor.
  - simpl. eexists. split; [ reflexivity | ]. split; [ exact I | ].
    eexists. split; [ reflexivity | ].
    split; [ exists 4; split; [ reflexivity | lia ] | ].
    eexists. split; [ reflexivity | ].
    split; [ exists 4; split; [ reflexivity | lia ] | exact I ].
Defined.


Lemma uniformly_dark_or_bright_frame_is_flagged_witness :
  is_mostly_black_or_white test_luma black
    (inject_Z 10) default_white_threshold
  = true.
Proof.
  apply (uniformly_dark_or_bright_frame_is_flagged test_luma black
           (inject_Z 10) default_white_threshold).
  - discriminate.
  - left. intros p [<- | [<- | [<- | [<- | []]]]]; reflexivity.
Defined.

(** * Further properties: which frames are kept *)

(** X16: on an opened video with a non-zero stride, the first frame is written
    exactly when the hash function answers on it and the classifier does not
    flag it: no stored hash stands against it. *)
Theorem first_frame_written_iff_not_flagged
    (luma : Pixel -> Z) (cfg : Config) (cap : VideoCapture)
    (frame : Frame) (rest : list Frame) :
  frame_interval cfg <> 0 ->
  isOpened cap = true ->
  frames cap = frame :: rest ->
  (In (Imwrite 0 frame) (fst (extract_frames luma cfg cap))
   <-> degenerate luma cfg frame = false
       /\ exists h, hash_func cfg frame (hash_size cfg) = Ok h).
Proof.
  intros HK Ho Hf. split.
  - intros Hin.
    apply extract_frames_processed with (j := 0) in Hin; [ | reflexivity ].
    apply while_loop_In_init in Hin.
    destruct Hin as [(k & _ & Hk) | (k & st1 & f & Hn & Hi & _ & Hin)];
      [ discriminate Hk | ].
    apply loop_body_imwrite in Hin.
    destruct Hin as (_ & -> & _ & Hbw & h & Hh & _). eauto.
  - intros (Hbw & h & Hh). unfold degenerate in Hbw.
    assert (Hb : loop_body luma cfg init_locals frame
                 = ([Classify 0; HashCall 0; Imwrite 0 frame],
                    Ok {| frame_index := 1;
                          saved_frame_count := 1;
                          previous_hash := Some h |})).
    { rewrite loop_body_sampled
        by (first [ exact HK | destruct (frame_interval cfg); reflexivity ]).
      unfold sampled_frame. rewrite Hh, Hbw. reflexivity. }
    rewrite extract_frames_opened by exact Ho. rewrite Hf.
    cbn [while_loop]. unfold emit. cbn [bind]. rewrite Hb. cbn [bind].
    destruct (while_loop luma cfg rest _) as [t [st | x]]; simpl;
      right; right; right; right; now left.
Qed.

Lemma is_mostly_black_or_white_monotone luma image (t t' w : Q) :
  (t <= t')%Q ->
  is_mostly_black_or_white luma image t w = true ->
  is_mostly_black_or_white luma image t' w = true.
Proof.
  unfold is_mostly_black_or_white. intros Hle H.
  apply orb_true_iff in H. apply orb_true_iff.
  destruct H as [H | H]; [ left | right; exact H ].
  apply Qlt_bool_iff in H. apply Qlt_bool_iff.
  now apply Qlt_le_trans with t.
Qed.

Section Stricter.

Variable luma : Pixel -> Z.
Variables cfg cfg' : Config.

Hypothesis same_interval : frame_interval cfg' = frame_interval cfg.
Hypothesis same_hash_func : hash_func cfg' = hash_func cfg.
Hypothesis same_hash_size : hash_size cfg' = hash_size cfg.
Hypothesis higher_diff_threshold :
  hash_diff_threshold cfg <= hash_diff_threshold cfg'.
Hypothesis higher_black_threshold :
  (black_white_threshold cfg <= black_white_threshold cfg')%Q.

(** The two runs go through the same states, the counter apart, and fail
    together; what the stricter one writes the other one writes. *)
Lemma loop_body_stricter st st' frame :
  frame_index st' = frame_index st ->
  previous_hash st' = previous_hash st ->
  (forall j g,
      In (Imwrite j g) (fst (loop_body luma cfg' st' frame)) ->
      In (Imwrite j g) (fst (loop_body luma cfg st frame)))
  /\ match snd (loop_body luma cfg st frame),
           snd (loop_body luma cfg' st' frame) with
     | Ok s, Ok s' =>
         frame_index s' = frame_index s /\ previous_hash s' = previous_hash s
     | Raise _, Raise _ => True
     | _, _ => False
     end.
Proof.
  intros Hi Hp.
  unfold loop_body, py_mod. rewrite same_interval, Hi.
  destruct (frame_interval cfg =? 0); [ simpl; auto | ].
  cbn [lift bind].
  destruct (frame_index st mod frame_interval cfg =? 0);
    [ | simpl; rewrite Hi, Hp; auto ].
  unfold sampled_frame.
  rewrite same_hash_func, same_hash_size, Hi, Hp.
  destruct (hash_func cfg frame (hash_size cfg)) as [h | x];
    [ | simpl; auto ].
  assert (Hbw := is_mostly_black_or_white_monotone luma frame _ _
                   default_white_threshold higher_black_threshold).
  destruct (previous_hash st) as [prev | ].
  - cbn [emit lift bind app].
    destruct (hash_sub h prev) as [d | x]; [ | simpl; auto ].
    assert (Hd : (d <? hash_diff_threshold cfg) = true ->
                 (d <? hash_diff_threshold cfg') = true).
    { rewrite !Z.ltb_lt. lia. }
    destruct (d <? hash_diff_threshold cfg);
      destruct (d <? hash_diff_threshold cfg');
      try (specialize (Hd eq_refl); discriminate Hd);
      destruct (is_mostly_black_or_white luma frame
                  (black_white_threshold cfg) default_white_threshold);
      destruct (is_mostly_black_or_white luma frame
                  (black_white_threshold cfg') default_white_threshold);
      try (specialize (Hbw eq_refl); discriminate Hbw);
      simpl; (split; [ intros j g Hin | auto ]);
      repeat match goal with
             | H : _ \/ _ |- _ => destruct H
             | H : False |- _ => destruct H
             | H : _ = Imwrite _ _ |- _ => inversion H; clear H; subst
             end; auto 10.
  - cbn [emit lift bind app ret].
    destruct (is_mostly_black_or_white luma frame
                (black_white_threshold cfg) default_white_threshold);
      destruct (is_mostly_black_or_white luma frame
                  (black_white_threshold cfg') default_white_threshold);
      try (specialize (Hbw eq_refl); discriminate Hbw);
      simpl; (split; [ intros j g Hin | auto ]);
      repeat match goal with
             | H : _ \/ _ |- _ => destruct H
             | H : False |- _ => destruct H
             | H : _ = Imwrite _ _ |- _ => inversion H; clear H; subst
             end; auto 10.
Qed.

Lemma while_loop_stricter fs st st' j g :
  frame_index st' = frame_index st ->
  previous_hash st' = previous_hash st ->
  In (Imwrite j g) (fst (while_loop luma cfg' fs st')) ->
  In (Imwrite j g) (fst (while_loop luma cfg fs st)).
Proof.
  revert st st'. induction fs as [ | f fs IH ]; intros st st' Hi Hp;
    [ intros [] | ].
  cbn [while_loop]. unfold emit. cbn [bind].
  destruct (loop_body_stricter st st' f Hi Hp) as [Hw Hr].
  destruct (loop_body luma cfg st f) as [t1 [s1 | x1]];
    destruct (loop_body luma cfg' st' f) as [t1' [s1' | x1']];
    cbn [fst snd] in Hw, Hr; try contradiction; cbn [bind].
  - destruct Hr as [Hi1 Hp1]. specialize (IH s1 s1' Hi1 Hp1).
    destruct (while_loop luma cfg fs s1) as [t2 r2].
    destruct (while_loop luma cfg' fs s1') as [t2' r2'].
    cbn [fst] in IH. simpl. intros [Hx | Hin]; [ discriminate Hx | ].
    right. apply in_or_app. apply in_app_or in Hin.
    destruct Hin as [Hin | Hin]; [ left; now apply Hw | right; now apply IH ].
  - simpl. intros [Hx | Hin]; [ discriminate Hx | ].
    right. now apply Hw.
Qed.

End Stricter.

(** X17: raising the duplicate threshold or the black threshold never adds an
    image: with the same stride and hash function, every image the run with
    the higher thresholds writes is written by the run with the lower ones.
    This rests on the stored hash following the sampled frames: what is
    decided about one frame does not change what the next one is compared
    with. *)
Theorem higher_thresholds_never_add_images
    (luma : Pixel -> Z) (cfg cfg' : Config) (cap : VideoCapture)
    (i : Z) (g : Frame) :
  frame_interval cfg' = frame_interval cfg ->
  hash_func cfg' = hash_func cfg ->
  hash_size cfg' = hash_size cfg ->
  hash_diff_threshold cfg <= hash_diff_threshold cfg' ->
  (black_white_threshold cfg <= black_white_threshold cfg')%Q ->
  In (Imwrite i g) (fst (extract_frames luma cfg' cap)) ->
  In (Imwrite i g) (fst (extract_frames luma cfg cap)).
Proof.
  intros HK Hf Hs HT Hb Hin.
  destruct (isOpened cap) eqn:Ho.
  - apply extract_frames_processed with (j := i) in Hin; [ | reflexivity ].
    apply (while_loop_stricter luma cfg cfg' HK Hf Hs HT Hb
             (frames cap) init_locals init_locals i g eq_refl eq_refl) in Hin.
    rewrite extract_frames_opened by exact Ho.
    destruct (while_loop luma cfg (frames cap) init_locals) as [t [st | x]];
      cbn [fst] in *; right; [ apply in_or_app; now left | exact Hin ].
  - unfold extract_frames in Hin. rewrite Ho in Hin. simpl in Hin.
    destruct Hin as [Hx | []]. discriminate Hx.
Qed.

Lemma first_frame_written_iff_not_flagged_witness :
  In (Imwrite 0 checker_a)
     (fst (extract_frames test_luma (with_interval (-3) default_config)
             (video [checker_a; black])))
  <-> degenerate test_luma (with_interval (-3) default_config) checker_a = false
      /\ exists h,
           hash_func (with_interval (-3) default_config) checker_a
             (hash_size (with_interval (-3) default_config))
           = Ok h.
Proof.
  apply (first_frame_written_iff_not_flagged test_luma
           (with_interval (-3) default_config) (video [checker_a; black])
           checker_a [black]);
    first [ reflexivity | discriminate ].
Defined.

Lemma higher_thresholds_never_add_images_witness :
  In (Imwrite 1 checker_b)
     (fst (extract_frames test_luma (with_diff_threshold 4 stride1)
             (video [checker_a; checker_b; half_a])))
  /\ In (Imwrite 1 checker_b)
        (fst (extract_frames test_luma fine
                (video [checker_a; checker_b; half_a]))).
Proof.
  assert (Hin : In (Imwrite 1 checker_b)
                   (fst (extract_frames test_luma (with_diff_threshold 4 stride1)
                           (video [checker_a; checker_b; half_a]))))
    by (simpl; repeat (first [ left; reflexivity | right ])).
  split; [ exact Hin | ].
  apply (higher_thresholds_never_add_images test_luma fine
           (with_diff_threshold 4 stride1)
           (video [checker_a; checker_b; half_a]) 1 checker_b);
    first [ reflexivity | exact Hin | simpl; lia | apply Qle_refl ].
Defined.
